(** * Interval point cover and triangle minimum path sum

    A shallow embedding of the two programs of the repository:

    - the segment-cover program: the solver
      [SegmentProcessor::find_minimum_points_to_cover_all_segments], the
      reader [FileReader::read_segments_from_file] and the pipeline
      [ProcessingPipeline::execute] that runs one after the other;
    - the triangle program of [task_5/main.cpp]: [minimum_total], the
      generator [TriangleGenerator::generate_random_triangle] and the
      printing functions [vectorToString], [triangleToString] and
      [pathToString].

    C++ [int] values are integers of [Z].  The segment program only
    compares them.  The triangle program adds and subtracts them; signed
    overflow is undefined in C++, and the embedding gives it the 32-bit
    wrap-around that compilers produce, written out in [int_add] and
    [int_sub].  Vectors are lists, read with [!!] and updated in place
    with [<[_:=_]>]; an access outside a vector is undefined behaviour, a
    result of its own ([Undefined]).  A C++ exception is the result
    [Throw].  Vectors are taken to have fewer than 2^31 elements, so that
    a [size()] stored in an [int] is the length.  The logger is not
    embedded: its messages are no part of any result. *)

From stdpp Require Import base list strings pretty.
From Stdlib Require Import ZArith Lia Ascii Sorted.

Open Scope Z_scope.

(** * Part I: the programs *)

(** ** C++ results: a value, an exception, or undefined behaviour *)

Inductive exception : Type :=
  | invalid_argument (what : string)
  | runtime_error (what : string)
  | bad_alloc.

Inductive outcome (A : Type) : Type :=
  | Ret (a : A)
  | Throw (e : exception)
  | Undefined.

Arguments Ret {A} a.
Arguments Throw {A} e.
Arguments Undefined {A}.

#[global] Instance outcome_ret : MRet outcome := fun A a => Ret a.

#[global] Instance outcome_bind : MBind outcome := fun A B f m =>
  match m with
  | Ret a => f a
  | Throw e => Throw e
  | Undefined => Undefined
  end.

(** [for_each xs body s]: a [for] loop whose control variable runs through
    [xs], threading the loop state [s]; the loop stops at the first
    iteration that throws or is undefined. *)
Fixpoint for_each {X S : Type} (xs : list X) (body : X -> S -> outcome S)
    (s : S) : outcome S :=
  match xs with
  | [] => Ret s
  | x :: xs' => s' ← body x s; for_each xs' body s'
  end.

(** ** 32-bit [int] *)

Definition INT_MIN : Z := -2147483648.
Definition INT_MAX : Z := 2147483647.

Definition in_int_range (z : Z) : bool := (INT_MIN <=? z) && (z <=? INT_MAX).

(** Two's-complement wrap-around of a mathematical result into [int]. *)
Definition wrap_int (z : Z) : Z := (z + 2147483648) mod 4294967296 - 2147483648.

Definition int_add (a b : Z) : Z := wrap_int (a + b).
Definition int_sub (a b : Z) : Z := wrap_int (a - b).

(** ** The segment-cover program: [SegmentProcessor] *)

(** A segment is the [std::pair<int, int>] of its two ends. *)
Definition segment : Type := Z * Z.

(** The text of the [std::invalid_argument] thrown by the validation loop. *)
Definition validation_message (i : nat) (seg : segment) : string :=
  "Segment " +:+ pretty i +:+ " has start > end: (" +:+ pretty seg.1 +:+
  ", " +:+ pretty seg.2 +:+ ")".

(** The validation loop, at index [i] of the vector with [segs] left. *)
Fixpoint validate_from (i : nat) (segs : list segment) : outcome unit :=
  match segs with
  | [] => Ret ()
  | seg :: rest =>
      if seg.1 >? seg.2 then Throw (invalid_argument (validation_message i seg))
      else validate_from (S i) rest
  end.

(** The comparator handed to [std::sort]: by right end only. *)
Definition by_right_end (a b : segment) : bool := a.2 <? b.2.

(** [std::sort] leaves the order of segments with equal right ends
    unspecified.  [std_sort] is the insertion sort that libstdc++ runs on
    short ranges, which keeps them in input order.  What is proved of
    the sweep asks of the sorted vector only that it is a permutation
    sorted by right end ([coverage_for_any_sort_order],
    [sentinel_input_one_order]), so it holds for whatever order
    [std::sort] picks. *)
Fixpoint sorted_insert (x : segment) (l : list segment) : list segment :=
  match l with
  | [] => [x]
  | y :: l' => if by_right_end x y then x :: l else y :: sorted_insert x l'
  end.

Definition std_sort (l : list segment) : list segment :=
  fold_left (fun acc x => sorted_insert x acc) l [].

(** The state of the selection loop. *)
Record sweep_state : Type := SweepState {
  current_covering_point : Z;
  selected_points : list Z
}.

(** One iteration of [for (const auto& segment : sorted_segments)]. *)
Definition sweep_step (st : sweep_state) (seg : segment) : sweep_state :=
  let segment_start := seg.1 in
  let segment_end := seg.2 in
  if (current_covering_point st =? -1) || (current_covering_point st <? segment_start)
  then SweepState segment_end (selected_points st ++ [segment_end])
  else st.

Definition find_minimum_points_to_cover_all_segments (segments : list segment)
    : outcome (Z * list Z) :=
  if decide (length segments = 0%nat) then Ret (0, [])
  else
    _ ← validate_from 0 segments;
    let sorted_segments := std_sort segments in
    let st := fold_left sweep_step sorted_segments (SweepState (-1) []) in
    let total_points_required := Z.of_nat (length (selected_points st)) in
    Ret (total_points_required, selected_points st).

(** ** The segment-cover program: [FileReader] *)

(** [operator>>] into an [int], on the text left in a string stream:
    skip white space, read an optional sign and the decimal digits; no
    digit, or a value outside [int], sets the fail bit ([None]). *)
Definition is_space (c : ascii) : bool :=
  bool_decide (c ∈ [" "; "009"; "010"; "011"; "012"; "013"]%char).

Definition digit_value (c : ascii) : option Z :=
  let n := Z.of_nat (nat_of_ascii c) in
  if (48 <=? n) && (n <=? 57) then Some (n - 48) else None.

Fixpoint skip_space (s : string) : string :=
  match s with
  | String c s' => if is_space c then skip_space s' else s
  | EmptyString => s
  end.

Fixpoint read_digits (s : string) (acc : option Z) : option Z * string :=
  match s with
  | String c s' =>
      match digit_value c with
      | Some d => read_digits s' (Some (10 * default 0 acc + d))
      | None => (acc, s)
      end
  | EmptyString => (acc, s)
  end.

Definition extract_int (s : string) : option (Z * string) :=
  let s1 := skip_space s in
  let '(negative, s2) :=
    match s1 with
    | String "-" r => (true, r)
    | String "+" r => (false, r)
    | _ => (false, s1)
    end in
  match read_digits s2 None with
  | (Some v, rest) =>
      let v := if negative : bool then - v else v in
      if in_int_range v then Some (v, rest) else None
  | (None, _) => None
  end.

(** [line_ss >> start >> end]. *)
Definition extract_two_ints (line : string) : option (Z * Z) :=
  '(a, rest) ← extract_int line;
  '(b, _) ← extract_int rest;
  Some (a, b).

(** The local variables of [read_segments_from_file]. *)
Record reader_state : Type := ReaderState {
  segments_data : list segment;
  lines_read : Z;
  segments_read : Z;
  lines_skipped : Z
}.

(** [while (std::getline(file, line) && segments_read < total_segments_count)],
    with [lines] the lines [std::getline] has still to deliver. *)
Fixpoint read_loop (total_segments_count : Z) (lines : list string)
    (st : reader_state) : outcome reader_state :=
  match lines with
  | [] => Ret st
  | line :: rest =>
      if segments_read st <? total_segments_count then
        let lines_read' := lines_read st + 1 in
        if decide (line = "") then
          read_loop total_segments_count rest
            (ReaderState (segments_data st) lines_read' (segments_read st)
               (lines_skipped st + 1))
        else
          match extract_two_ints line with
          | None => Throw (runtime_error "Invalid segment data")
          | Some (start, end_) =>
              let actual_start := Z.min start end_ in
              let actual_end := Z.max start end_ in
              read_loop total_segments_count rest
                (ReaderState (segments_data st ++ [(actual_start, actual_end)])
                   lines_read' (segments_read st + 1) (lines_skipped st))
          end
      else Ret st
  end.

(** What a call that returns has done: the vector it returns, and whether
    it logged the count-mismatch warning. *)
Record read_result : Type := ReadResult {
  segments_returned : list segment;
  count_mismatch_warning : bool
}.

(** A file is the list of lines [std::getline] reads from it; the file
    system maps a name to its file, if there is one. *)
Definition file_system : Type := string -> option (list string).

(** [segments_data.size() != total_segments_count] compares a [size_t]
    with an [int], which is first converted to [size_t]. *)
Definition size_differs (size : nat) (count : Z) : bool :=
  negb (Z.of_nat size =? count mod 2 ^ 64).

Definition read_segments_from_file (fs : file_system) (filename : string)
    : outcome read_result :=
  match fs filename with
  | None => Throw (runtime_error ("File not found: " +:+ filename))
  | Some [] => Throw (runtime_error "Empty file")
  | Some (first_line :: lines) =>
      match extract_int first_line with
      | None => Throw (runtime_error "Invalid format")
      | Some (total_segments_count, _) =>
          st ← read_loop total_segments_count lines (ReaderState [] 0 0 0);
          if segments_read st <? total_segments_count
          then Throw (runtime_error "Unexpected end of file")
          else Ret (ReadResult (segments_data st)
                      (size_differs (length (segments_data st)) total_segments_count))
      end
  end.

(** ** The segment-cover program: [ProcessingPipeline] *)

(** The file that [ProcessingPipeline::execute] reads. *)
Definition input_filename : string := "data_prog_contest_problem_1.txt".

(** [ProcessingPipeline::execute]: the [try] block, reader then solver,
    and its handler for [std::exception]. *)
Definition execute (fs : file_system) : outcome (Z * list Z) :=
  match
    segments ← read_segments_from_file fs input_filename;
    find_minimum_points_to_cover_all_segments (segments_returned segments)
  with
  | Throw _ => Ret (-1, [])
  | result => result
  end.

(** ** The triangle program: [minimum_total] *)

(** A [std::vector<std::vector<int>>]: the triangle, and the DP table. *)
Abbreviation table := (list (list Z)).

(** [t[i][j]], read. *)
Definition at2 (t : table) (i j : nat) : outcome Z :=
  match t !! i with
  | Some row => match row !! j with Some v => Ret v | None => Undefined end
  | None => Undefined
  end.

(** [t[i][j] = v]. *)
Definition set2 (t : table) (i j : nat) (v : Z) : outcome table :=
  match t !! i with
  | Some row =>
      if decide (j < length row)%nat then Ret (<[i := <[j := v]> row]> t)
      else Undefined
  | None => Undefined
  end.

(** [t[i].size()]. *)
Definition size_at (t : table) (i : nat) : outcome nat :=
  match t !! i with
  | Some row => Ret (length row)
  | None => Undefined
  end.

(** The one operation of [minimum_total] that can throw is the allocation
    of storage; [alloc_ok k] says whether the allocator grants a request
    for [k] elements (the [int]s of a vector, the characters of a
    string), and a refused request throws [std::bad_alloc]. *)
Definition allocate (alloc_ok : nat -> bool) (k : nat) : outcome unit :=
  if alloc_ok k then Ret () else Throw bad_alloc.

(** [path.push_back(v)], with [current_col] carried along. *)
Definition push_back (alloc_ok : nat -> bool) (current_col : nat)
    (path : list Z) (v : Z) : outcome (nat * list Z) :=
  _ ← allocate alloc_ok (S (length path));
  Ret (current_col, path ++ [v]).

(** [dp[i].resize(triangle[i].size())], for every row. *)
Definition resize_rows (alloc_ok : nat -> bool) (triangle : table) (n : nat)
    (dp : table) : outcome table :=
  for_each (seq 0 n) (fun i dp =>
    size ← size_at triangle i;
    _ ← allocate alloc_ok size;
    Ret (<[i := replicate size 0]> dp)) dp.

(** [dp[n-1][j] = triangle[n-1][j]], for every column of the last row. *)
Definition copy_last_row (triangle : table) (n : nat) (dp : table)
    : outcome table :=
  size ← size_at triangle (n - 1);
  for_each (seq 0 size) (fun j dp =>
    v ← at2 triangle (n - 1) j;
    set2 dp (n - 1) j v) dp.

(** The inner loop of the DP: row [i], from the row below. *)
Definition fill_row (triangle : table) (i : nat) (dp : table) : outcome table :=
  size ← size_at triangle i;
  for_each (seq 0 size) (fun j dp =>
    t ← at2 triangle i j;
    below ← at2 dp (i + 1) j;
    below_right ← at2 dp (i + 1) (j + 1);
    set2 dp i j (int_add t (Z.min below below_right))) dp.

(** The outer loop: [for (int i = n-2; i >= 0; --i)]. *)
Definition fill_rows (triangle : table) (n : nat) (dp : table) : outcome table :=
  for_each (rev (seq 0 (n - 1))) (fill_row triangle) dp.

(** One iteration of the reconstruction loop, at row [i]. *)
Definition reconstruct_step (alloc_ok : nat -> bool) (triangle dp : table)
    (i : nat) (st : nat * list Z) : outcome (nat * list Z) :=
  let '(current_col, path) := st in
  d ← at2 dp (i - 1) current_col;
  t ← at2 triangle (i - 1) current_col;
  let expected_value := int_sub d t in
  here ← at2 dp i current_col;
  if here =? expected_value then
    v ← at2 triangle i current_col;
    push_back alloc_ok current_col path v
  else
    let current_col := (current_col + 1)%nat in
    v ← at2 triangle i current_col;
    push_back alloc_ok current_col path v.

(** The body of the [try] block. *)
Definition minimum_total_try (alloc_ok : nat -> bool) (triangle : table)
    : outcome (Z * list Z) :=
  match triangle with
  | [] | [] :: _ => Ret (0, [])
  | _ =>
      let n := length triangle in
      _ ← allocate alloc_ok n;
      dp ← resize_rows alloc_ok triangle n (replicate n []);
      dp ← copy_last_row triangle n dp;
      dp ← fill_rows triangle n dp;
      let current_col := 0%nat in
      v ← at2 triangle 0 current_col;
      st ← push_back alloc_ok current_col [] v;
      st ← for_each (seq 1 (n - 1)) (reconstruct_step alloc_ok triangle dp) st;
      let path := st.2 in
      min_sum ← at2 dp 0 0;
      _ ← allocate alloc_ok (length path);
      Ret (min_sum, path)
  end.

(** [error.what()]; the text for [std::bad_alloc] is the one of
    libstdc++. *)
Definition what (error : exception) : string :=
  match error with
  | invalid_argument message | runtime_error message => message
  | bad_alloc => "std::bad_alloc"
  end.

(** The handler of [minimum_total].  Before it returns the sentinel
    result it builds the message for the log,
    ["Error in minimum path calculation: " + std::string(error.what())]:
    a string too long for the object itself, so its characters are
    storage that the allocator has to grant.  This happens outside the
    [try] block: a refusal leaves [minimum_total] as [std::bad_alloc]. *)
Definition minimum_total_catch (alloc_ok : nat -> bool) (error : exception)
    : outcome (Z * list Z) :=
  let message := "Error in minimum path calculation: " +:+ what error in
  _ ← allocate alloc_ok (String.length message);
  Ret (INT_MAX, []).

(** [minimum_total] under an allocator: the [try] block, and its handler
    for every [std::exception]. *)
Definition minimum_total_under (alloc_ok : nat -> bool) (triangle : table)
    : outcome (Z * list Z) :=
  match minimum_total_try alloc_ok triangle with
  | Throw error => minimum_total_catch alloc_ok error
  | r => r
  end.

(** [minimum_total] when memory does not run out. *)
Definition minimum_total (triangle : table) : outcome (Z * list Z) :=
  minimum_total_under (fun _ => true) triangle.

(** ** The triangle program: the printing functions *)

(** [a - b] on a [size_t] of 64 bits: [vec.size() - 1] wraps around when
    the vector is empty. *)
Definition size_t_sub (a b : Z) : Z := (a - b) mod 2 ^ 64.

(** [vectorToString]: [ss << vec[i]] prints the [int] as [std::to_string]
    does.  The index [i] runs below [vec.size()], so [vec[i]] is in
    range. *)
Definition vectorToString (vec : list Z) : string :=
  let ss := "[" in
  let ss :=
    fold_left (fun ss i =>
      let ss := ss +:+ pretty (vec !!! i) in
      if Z.of_nat i <? size_t_sub (Z.of_nat (length vec)) 1 then ss +:+ ", "
      else ss) (seq 0 (length vec)) ss in
  ss +:+ "]".

(** [pathToString]. *)
Definition pathToString (path : list Z) : string :=
  fold_left (fun ss i =>
    let ss := ss +:+ pretty (path !!! i) in
    if Z.of_nat i <? size_t_sub (Z.of_nat (length path)) 1 then ss +:+ " -> "
    else ss) (seq 0 (length path)) "".

(** [triangleToString], with its inner loop over the row. *)
Definition triangleToString (triangle : table) : string :=
  let ss := "[" in
  let ss :=
    fold_left (fun ss i =>
      let row := triangle !!! i in
      let ss := ss +:+ "[" in
      let ss :=
        fold_left (fun ss j =>
          let ss := ss +:+ pretty (row !!! j) in
          if Z.of_nat j <? size_t_sub (Z.of_nat (length row)) 1 then ss +:+ ", "
          else ss) (seq 0 (length row)) ss in
      let ss := ss +:+ "]" in
      if Z.of_nat i <? size_t_sub (Z.of_nat (length triangle)) 1 then ss +:+ ", "
      else ss) (seq 0 (length triangle)) ss in
  ss +:+ "]".

(** ** The triangle program: [TriangleGenerator] *)

(** [TriangleGenerator::generate_random_triangle].  The numbers that
    [dis(gen)] delivers are a parameter: [draw k] is the number of the
    [k]-th call on the generator since it was made, and the count of
    calls is the state that the generator keeps from one triangle to the
    next.  What [std::uniform_int_distribution<int>(min_val, max_val)]
    promises of them, [min_val <= draw k <= max_val], is a hypothesis
    where it is used. *)
Definition random_row (draw : nat -> Z) (i : nat) (calls : nat) : list Z * nat :=
  fold_left (fun '((row, calls) : list Z * nat) (_ : nat) =>
               (row ++ [draw calls], S calls))
    (seq 0 (S i)) ([], calls).

Definition generate_random_triangle (draw : nat -> Z) (rows : Z) (calls : nat)
    : table * nat :=
  fold_left
    (fun '((triangle, calls) : table * nat) i =>
       let '(row, calls) := random_row draw i calls in
       (triangle ++ [row], calls))
    (seq 0 (Z.to_nat rows)) ([], calls).

(** * Part II: the vocabulary of the specification *)

(** ** Specification vocabulary: segments and points *)

(** The closed interval [seg] contains the point [p]. *)
Definition covers (p : Z) (seg : segment) : Prop := seg.1 <= p <= seg.2.

(** Some point of [points] lies in [seg]. *)
Definition hit_by (points : list Z) (seg : segment) : Prop :=
  Exists (fun p => covers p seg) points.

(** [points] is a point cover of [segs]. *)
Definition hits_all (points : list Z) (segs : list segment) : Prop :=
  Forall (hit_by points) segs.

(** The solver's precondition on one segment. *)
Definition well_formed (seg : segment) : Prop := seg.1 <= seg.2.

#[global] Instance covers_dec p seg : Decision (covers p seg).
Proof. unfold covers. apply _. Defined.

#[global] Instance hit_by_dec points seg : Decision (hit_by points seg).
Proof. unfold hit_by. apply _. Defined.

#[global] Instance hits_all_dec points segs : Decision (hits_all points segs).
Proof. unfold hits_all. apply _. Defined.

#[global] Instance well_formed_dec seg : Decision (well_formed seg).
Proof. unfold well_formed. apply _. Defined.

(** What [std::sort] guarantees of its result with [by_right_end]. *)
Definition ends_ascending : list segment -> Prop :=
  StronglySorted (fun a b : segment => a.2 <= b.2).

(** The points the selection loop appends, from the current point [c] on. *)
Fixpoint sweep_points (c : Z) (sorted : list segment) : list Z :=
  match sorted with
  | [] => []
  | seg :: rest =>
      if (c =? -1) || (c <? seg.1) then seg.2 :: sweep_points seg.2 rest
      else sweep_points c rest
  end.

(** The sweep in the specification's words: the current point is
    undefined ([None]) until a point is chosen; a segment selects its right
    end when no point is chosen yet or the current point lies strictly
    left of its start. *)
Fixpoint specified_sweep (current : option Z) (sorted : list segment) : list Z :=
  match sorted with
  | [] => []
  | seg :: rest =>
      match current with
      | None => seg.2 :: specified_sweep (Some seg.2) rest
      | Some c =>
          if c <? seg.1 then seg.2 :: specified_sweep (Some seg.2) rest
          else specified_sweep current rest
      end
  end.

(** The result the specification describes: count and points of the
    sweep over the segments sorted by right end, ties in input order. *)
Definition specified_cover (segs : list segment) : Z * list Z :=
  let points := specified_sweep None (std_sort segs) in
  (Z.of_nat (length points), points).

(** The segments at which the specified sweep selects a point. *)
Fixpoint selecting (current : option Z) (sorted : list segment) : list segment :=
  match sorted with
  | [] => []
  | seg :: rest =>
      match current with
      | None => seg :: selecting (Some seg.2) rest
      | Some c =>
          if c <? seg.1 then seg :: selecting (Some seg.2) rest
          else selecting current rest
      end
  end.

(** Each segment of the chain starts strictly right of [c], the end of the
    one before it. *)
Fixpoint separated_from (c : Z) (chain : list segment) : Prop :=
  match chain with
  | [] => True
  | seg :: rest => c < seg.1 /\ seg.1 <= seg.2 /\ separated_from seg.2 rest
  end.

(** An empty line of the segments file. *)
Definition blank (line : string) : Prop := line = "".

(** Two runs of the loop agree up to the two line counters, which only
    the log shows. *)
Definition same_segments (r1 r2 : outcome reader_state) : Prop :=
  match r1, r2 with
  | Ret st1, Ret st2 =>
      segments_data st1 = segments_data st2 /\ segments_read st1 = segments_read st2
  | Throw e1, Throw e2 => e1 = e2
  | Undefined, Undefined => True
  | _, _ => False
  end.

(** ** Specification vocabulary: triangles, the recurrence, paths *)

(** Rows of lengths [b], [b+1], [b+2], ... *)
Fixpoint shape_from (b : nat) (rows : table) : Prop :=
  match rows with
  | [] => True
  | row :: rest => length row = b /\ shape_from (S b) rest
  end.

(** Row [i] has exactly [i+1] entries. *)
Definition well_formed_triangle (triangle : table) : Prop := shape_from 1 triangle.

(** The entries are [int] values. *)
Definition is_int (z : Z) : Prop := INT_MIN <= z <= INT_MAX.
Definition int_entries (t : table) : Prop := Forall (Forall is_int) t.

(** The recurrence: the last row is itself, and a cell of any other row is
    its entry plus the smaller of the two cells below it.  [op] is the
    addition: [Z.add] for the recurrence over the integers, [int_add] for
    what the program computes. *)
Definition dp_row (op : Z -> Z -> Z) (row below : list Z) : list Z :=
  imap (fun j t => op t (Z.min (below !!! j) (below !!! S j))) row.

Fixpoint dp_table (op : Z -> Z -> Z) (rows : table) : table :=
  match rows with
  | [] => []
  | row :: rest =>
      match dp_table op rest with
      | [] => [row]
      | (below :: _) as t => dp_row op row below :: t
      end
  end.

(** [t[i][j]] for a cell of the table (outside the table it is the
    default element of the library, which is of no use). *)
Definition cell (t : table) (i j : nat) : Z := (t !!! i) !!! j.

(** No cell of the recurrence over the integers leaves the [int] range. *)
Definition no_overflow (triangle : table) : Prop :=
  int_entries (dp_table Z.add triangle).

(** Columns of a path below column [c]: each is the column before it or
    the next one. *)
Fixpoint follows (c : nat) (cols : list nat) : Prop :=
  match cols with
  | [] => True
  | c' :: rest => (c' = c \/ c' = S c) /\ follows c' rest
  end.

(** A top-to-bottom path, as the column it takes in each row. *)
Definition is_path (triangle : table) (cols : list nat) : Prop :=
  length cols = length triangle /\ head cols = Some 0%nat /\ follows 0 (tail cols).

(** The entries a path visits, and their sum. *)
Definition entries_at (rows : table) (cols : list nat) : list Z :=
  zip_with (fun row c => row !!! c) rows cols.

Definition sum_list (l : list Z) : Z := foldr Z.add 0 l.

Definition path_sum (triangle : table) (cols : list nat) : Z :=
  sum_list (entries_at triangle cols).

(** The walk of the reconstruction loop through the rows below column
    [c], read off a DP table: stay when the cell below is not larger than
    the cell below and to the right, else move right. *)
Fixpoint descend (c : nat) (rows drows : table) : list (nat * Z) :=
  match rows, drows with
  | row :: rows', d :: drows' =>
      let c' := if bool_decide (d !!! c <= d !!! S c) then c else S c in
      (c', row !!! c') :: descend c' rows' drows'
  | _, _ => []
  end.

#[global] Instance is_int_dec z : Decision (is_int z).
Proof. unfold is_int. apply _. Defined.

#[global] Instance int_entries_dec t : Decision (int_entries t).
Proof. unfold int_entries. apply _. Defined.

#[global] Instance shape_from_dec b rows : Decision (shape_from b rows).
Proof. revert b. induction rows as [|row rest IH]; intros b; simpl; apply _. Defined.

#[global] Instance follows_dec c cols : Decision (follows c cols).
Proof. revert c. induction cols as [|c' rest IH]; intros c; simpl; apply _. Defined.

#[global] Instance is_path_dec triangle cols : Decision (is_path triangle cols).
Proof. unfold is_path. apply _. Defined.

(** [dp] has the rows of the triangle, whatever is in them. *)
Definition same_shape (dp triangle : table) : Prop :=
  length dp = length triangle /\
  forall i d row, dp !! i = Some d -> triangle !! i = Some row ->
    length d = length row.

(** ** Vocabulary of the further properties *)

(** The segment a data line stands for. *)
Definition segment_of_line (line : string) : option segment :=
  '(a, b) ← extract_two_ints line; Some (Z.min a b, Z.max a b).

(** The lines the reader takes for segments: the first [count] non-empty
    lines after the header (all of them when there are fewer). *)
Definition declared_lines (count : Z) (lines : list string) : list string :=
  take (Z.to_nat count) (filter (fun line => line <> "") lines).

(** Every entry lies between [-B] and [B]. *)
Definition entries_within (B : Z) (t : table) : Prop :=
  Forall (Forall (fun z => - B <= z <= B)) t.

(** A computation that throws no exception. *)
Definition never_throws {A} (m : outcome A) : Prop := forall e, m <> Throw e.

(** * Part III: what the programs do *)

(** ** Generic facts on loops and on [int] *)

Lemma bind_Ret_inv {A B} (m : outcome A) (f : A -> outcome B) (b : B) :
  m ≫= f = Ret b -> exists a, m = Ret a /\ f a = Ret b.
Proof. destruct m as [a| |]; simpl; intros H; try discriminate. by exists a. Qed.

(** Loop invariant rule: [Inv done s] speaks of the iterations already
    run; when every iteration keeps it and returns, so does the loop. *)
Lemma for_each_invariant {X S} (Inv : list X -> S -> Prop)
    (body : X -> S -> outcome S) (xs : list X) (s0 : S) :
  Inv [] s0 ->
  (forall pre x post s, xs = pre ++ x :: post -> Inv pre s ->
     exists s', body x s = Ret s' /\ Inv (pre ++ [x]) s') ->
  exists s', for_each xs body s0 = Ret s' /\ Inv xs s'.
Proof.
  intros H0 Hstep.
  assert (G : forall post pre s, xs = pre ++ post -> Inv pre s ->
            exists s', for_each post body s = Ret s' /\ Inv xs s').
  { induction post as [|x post IH]; intros pre s Hxs Hinv; simpl.
    - exists s. split; [done|]. by rewrite Hxs, app_nil_r.
    - destruct (Hstep pre x post s Hxs Hinv) as (s1 & Hb & Hinv1).
      rewrite Hb; simpl. apply (IH (pre ++ [x])); [|done].
      by rewrite <- app_assoc. }
  by apply (G xs [] s0).
Qed.

Lemma in_int_range_spec z : in_int_range z = true <-> INT_MIN <= z <= INT_MAX.
Proof. unfold in_int_range. rewrite andb_true_iff, !Z.leb_le. tauto. Qed.

Lemma wrap_int_id z : INT_MIN <= z <= INT_MAX -> wrap_int z = z.
Proof.
  unfold wrap_int, INT_MIN, INT_MAX. intros H.
  rewrite Z.mod_small by lia. lia.
Qed.

Lemma wrap_int_range z : INT_MIN <= wrap_int z <= INT_MAX.
Proof.
  unfold wrap_int, INT_MIN, INT_MAX.
  pose proof (Z.mod_pos_bound (z + 2147483648) 4294967296 ltac:(lia)). lia.
Qed.

Lemma wrap_int_congr a b :
  (a - b) mod 4294967296 = 0 -> wrap_int a = wrap_int b.
Proof.
  unfold wrap_int. intros H. f_equal.
  apply Z.mod_divide in H; [|lia]. destruct H as [k Hk].
  replace (a + 2147483648) with (b + 2147483648 + k * 4294967296) by lia.
  apply Z.mod_add. lia.
Qed.

Lemma wrap_int_idemp_add a b : wrap_int (wrap_int a + b) = wrap_int (a + b).
Proof.
  apply wrap_int_congr. unfold wrap_int.
  pose proof (Z.div_mod (a + 2147483648) 4294967296 ltac:(lia)) as E.
  set (q := (a + 2147483648) / 4294967296) in *.
  set (r := (a + 2147483648) mod 4294967296) in *.
  replace (r - 2147483648 + b - (a + b)) with (- q * 4294967296) by lia.
  apply Z.mod_mul. lia.
Qed.

(** ** [std_sort] sorts *)

Lemma sorted_insert_perm x l : sorted_insert x l ≡ₚ x :: l.
Proof.
  induction l as [|y l IH]; simpl; [done|].
  destruct (by_right_end x y); [done|].
  rewrite IH. apply Permutation_swap.
Qed.

Lemma sorted_insert_sorted x l :
  ends_ascending l -> ends_ascending (sorted_insert x l).
Proof.
  unfold ends_ascending. induction 1 as [|y l Hl IH Hy]; simpl.
  - repeat constructor.
  - unfold by_right_end. destruct (Z.ltb_spec x.2 y.2) as [Hlt|Hge].
    + constructor; [by constructor|].
      constructor; [lia|]. eapply Forall_impl; [exact Hy|]. simpl. lia.
    + constructor; [exact IH|].
      rewrite sorted_insert_perm. by constructor.
Qed.

Lemma std_sort_from_perm l acc :
  fold_left (fun acc x => sorted_insert x acc) l acc ≡ₚ l ++ acc.
Proof.
  revert acc. induction l as [|x l IH]; intros acc; simpl; [done|].
  rewrite IH, sorted_insert_perm. by rewrite Permutation_middle.
Qed.

Lemma std_sort_from_sorted l acc :
  ends_ascending acc ->
  ends_ascending (fold_left (fun acc x => sorted_insert x acc) l acc).
Proof.
  revert acc. induction l as [|x l IH]; intros acc Hacc; simpl; [done|].
  by apply IH, sorted_insert_sorted.
Qed.

Lemma std_sort_perm l : std_sort l ≡ₚ l.
Proof. unfold std_sort. by rewrite std_sort_from_perm, app_nil_r. Qed.

Lemma std_sort_sorted l : ends_ascending (std_sort l).
Proof. apply std_sort_from_sorted. constructor. Qed.

(** ** The selection loop *)

Lemma sweep_loop l st :
  selected_points (fold_left sweep_step l st)
  = selected_points st ++ sweep_points (current_covering_point st) l.
Proof.
  revert st. induction l as [|seg l IH]; intros st; simpl.
  - by rewrite app_nil_r.
  - rewrite IH. unfold sweep_step.
    destruct ((current_covering_point st =? -1)
              || (current_covering_point st <? seg.1)); simpl; [|done].
    by rewrite <- app_assoc.
Qed.

Lemma validate_from_ok i segs :
  Forall well_formed segs -> validate_from i segs = Ret ().
Proof.
  intros H. revert i. induction H as [|seg segs Hseg _ IH]; intros i; simpl; [done|].
  unfold well_formed in Hseg.
  destruct (Z.gtb_spec seg.1 seg.2); [lia|]. apply IH.
Qed.

(** On well-formed input the solver returns the points of the sweep. *)
Lemma solver_returns segs :
  Forall well_formed segs ->
  find_minimum_points_to_cover_all_segments segs
  = Ret (Z.of_nat (length (sweep_points (-1) (std_sort segs))),
         sweep_points (-1) (std_sort segs)).
Proof.
  intros H. unfold find_minimum_points_to_cover_all_segments.
  destruct (decide (length segs = 0%nat)) as [E|_].
  - apply length_zero_iff_nil in E. by subst.
  - rewrite validate_from_ok by done. simpl. by rewrite sweep_loop.
Qed.

(** Coverage, for any vector sorted by right end: a segment is hit by
    the current point or by a point selected from here on. *)
Lemma sweep_covers sorted c :
  ends_ascending sorted -> Forall well_formed sorted ->
  Forall (fun seg => c <= seg.2) sorted ->
  Forall (fun seg => covers c seg \/ hit_by (sweep_points c sorted) seg) sorted.
Proof.
  intros Hs. revert c. induction Hs as [|seg rest Hrest IH Hle]; intros c Hwf Hc.
  { constructor. }
  inversion Hwf as [|? ? Hseg Hwf']; subst.
  inversion Hc as [|? ? Hcseg Hc']; subst.
  unfold well_formed in Hseg. simpl.
  destruct ((c =? -1) || (c <? seg.1)) eqn:Hsel.
  - constructor.
    + right. apply Exists_cons_hd. unfold covers. lia.
    + specialize (IH seg.2 Hwf' Hle).
      eapply Forall_impl; [exact IH|]. intros seg' [Hcov|Hhit].
      * right. by apply Exists_cons_hd.
      * right. by apply Exists_cons_tl.
  - apply orb_false_iff in Hsel as [_ Hlt]. apply Z.ltb_ge in Hlt.
    constructor.
    + left. unfold covers. lia.
    + by apply IH.
Qed.

Lemma sweep_covers_all sorted :
  ends_ascending sorted -> Forall well_formed sorted ->
  hits_all (sweep_points (-1) sorted) sorted.
Proof.
  intros Hs Hwf. destruct Hs as [|seg rest Hrest Hle]; [constructor|].
  inversion Hwf as [|? ? Hseg Hwf']; subst. unfold well_formed in Hseg.
  simpl. constructor.
  - apply Exists_cons_hd. unfold covers. lia.
  - pose proof (sweep_covers rest seg.2 Hrest Hwf' Hle) as H.
    eapply Forall_impl; [exact H|]. intros seg' [Hcov|Hhit].
    + by apply Exists_cons_hd.
    + by apply Exists_cons_tl.
Qed.

(** Coverage does not depend on how [std::sort] orders equal right
    ends. *)
Lemma coverage_for_any_sort_order segs sorted :
  Forall well_formed segs -> sorted ≡ₚ segs -> ends_ascending sorted ->
  hits_all (sweep_points (-1) sorted) segs.
Proof.
  intros Hwf Hperm Hsorted. unfold hits_all. rewrite <- Hperm.
  apply sweep_covers_all; [done|]. by rewrite Hperm.
Qed.

(** C4.  Coverage invariant: when every segment has start <= end, the
    solver returns a count and a list of points, and every segment of the
    input contains at least one of the returned points. *)
Theorem coverage_invariant (segs : list segment) :
  Forall well_formed segs ->
  exists count points,
    find_minimum_points_to_cover_all_segments segs = Ret (count, points) /\
    count = Z.of_nat (length points) /\
    forall seg, seg ∈ segs -> exists p, p ∈ points /\ seg.1 <= p <= seg.2.
Proof.
  intros Hwf. eexists _, _. split; [by apply solver_returns|]. split; [done|].
  intros seg Hin.
  assert (Hall : hits_all (sweep_points (-1) (std_sort segs)) segs).
  { apply coverage_for_any_sort_order;
      [done|apply std_sort_perm|apply std_sort_sorted]. }
  unfold hits_all in Hall. rewrite Forall_forall in Hall.
  specialize (Hall seg Hin). unfold hit_by in Hall.
  apply Exists_exists in Hall as (p & Hp & Hcov). by exists p.
Qed.

Lemma coverage_invariant_witness :
  Forall well_formed [(4, 7); (1, 3); (2, 5); (6, 6)] /\
  exists count points,
    find_minimum_points_to_cover_all_segments [(4, 7); (1, 3); (2, 5); (6, 6)]
      = Ret (count, points) /\
    count = Z.of_nat (length points) /\
    forall seg, seg ∈ [(4, 7); (1, 3); (2, 5); (6, 6)] ->
      exists p, p ∈ points /\ seg.1 <= p <= seg.2.
Proof.
  assert (H : Forall well_formed [(4, 7); (1, 3); (2, 5); (6, 6)]).
  { repeat constructor; unfold well_formed; simpl; lia. }
  split; [exact H|]. exact (coverage_invariant _ H).
Defined.

(** ** Validation *)

(** The validation loop throws at the first segment with start > end,
    naming its index (counted from [k]) and its two ends. *)
Lemma validate_from_throws k segs :
  Exists (fun seg : segment => seg.1 > seg.2) segs ->
  exists i seg,
    segs !! i = Some seg /\ seg.1 > seg.2 /\
    (forall j seg', (j < i)%nat -> segs !! j = Some seg' -> seg'.1 <= seg'.2) /\
    validate_from k segs = Throw (invalid_argument (validation_message (k + i) seg)).
Proof.
  revert k. induction segs as [|seg segs IH]; intros k Hex.
  { inversion Hex. }
  simpl. destruct (Z.gtb_spec seg.1 seg.2) as [Hgt|Hle].
  - exists 0%nat, seg. rewrite Nat.add_0_r. repeat split; [lia|].
    intros j seg' Hj. lia.
  - assert (Hex' : Exists (fun seg : segment => seg.1 > seg.2) segs).
    { inversion Hex; subst; [lia|done]. }
    destruct (IH (S k) Hex') as (i & seg0 & Hi & Hbad & Hbefore & Hthrow).
    exists (S i), seg0. repeat split; [done|lia| |].
    + intros [|j] seg' Hj Hlook; simpl in Hlook.
      * by inversion Hlook; subst.
      * apply (Hbefore j); [lia|done].
    + rewrite Hthrow. do 3 f_equal. lia.
Qed.

(** C6.  Fail-fast validation: when some segment has start > end, the
    solver returns no result at all; it throws [std::invalid_argument]
    with the text built from the index and the two ends of the first such
    segment; every segment before it is well formed, and the sweep is
    never reached. *)
Theorem validation_error (segs : list segment) :
  Exists (fun seg : segment => seg.1 > seg.2) segs ->
  exists i seg,
    segs !! i = Some seg /\ seg.1 > seg.2 /\
    (forall j seg', (j < i)%nat -> segs !! j = Some seg' -> seg'.1 <= seg'.2) /\
    find_minimum_points_to_cover_all_segments segs
    = Throw (invalid_argument
        ("Segment " +:+ pretty i +:+ " has start > end: (" +:+ pretty seg.1 +:+
         ", " +:+ pretty seg.2 +:+ ")")).
Proof.
  intros Hex.
  destruct (validate_from_throws 0 segs Hex) as (i & seg & Hi & Hbad & Hbefore & Hthrow).
  exists i, seg. repeat split; [done|lia|done|].
  unfold find_minimum_points_to_cover_all_segments.
  destruct (decide (length segs = 0%nat)) as [E|_].
  - apply length_zero_iff_nil in E. subst. inversion Hex.
  - by rewrite Hthrow.
Qed.

Lemma validation_error_witness :
  Exists (fun seg : segment => seg.1 > seg.2) [(1, 2); (5, 2); (9, 3)] /\
  exists i seg,
    [(1, 2); (5, 2); (9, 3)] !! i = Some seg /\ seg.1 > seg.2 /\
    (forall j seg', (j < i)%nat -> [(1, 2); (5, 2); (9, 3)] !! j = Some seg' ->
       seg'.1 <= seg'.2) /\
    find_minimum_points_to_cover_all_segments [(1, 2); (5, 2); (9, 3)]
    = Throw (invalid_argument
        ("Segment " +:+ pretty i +:+ " has start > end: (" +:+ pretty seg.1 +:+
         ", " +:+ pretty seg.2 +:+ ")")).
Proof.
  assert (H : Exists (fun seg : segment => seg.1 > seg.2) [(1, 2); (5, 2); (9, 3)]).
  { apply Exists_cons_tl, Exists_cons_hd. simpl. lia. }
  split; [exact H|]. exact (validation_error _ H).
Defined.

(** The specification's example: a direct call with the segment (5, 2). *)
Example direct_call_with_5_2 :
  find_minimum_points_to_cover_all_segments [(5, 2)]
  = Throw (invalid_argument "Segment 0 has start > end: (5, 2)").
Proof. vm_compute. reflexivity. Qed.

(** ** The sentinel [-1] and the specified sweep *)

(** As long as no right end is [-1], "the current point is [-1]" means
    "no point chosen yet", and the loop is the specified sweep. *)
Lemma sweep_points_specified_from sorted c :
  c <> -1 -> Forall (fun seg : segment => seg.2 <> -1) sorted ->
  sweep_points c sorted = specified_sweep (Some c) sorted.
Proof.
  intros Hc H. revert c Hc.
  induction H as [|seg rest Hseg _ IH]; intros c Hc; simpl; [done|].
  destruct (Z.eqb_spec c (-1)) as [|_]; [done|]. simpl.
  destruct (c <? seg.1); [|by apply IH]. f_equal. by apply IH.
Qed.

Lemma sweep_points_specified sorted :
  Forall (fun seg : segment => seg.2 <> -1) sorted ->
  sweep_points (-1) sorted = specified_sweep None sorted.
Proof.
  intros H. destruct H as [|seg rest Hseg Hrest]; simpl; [done|].
  f_equal. by apply sweep_points_specified_from.
Qed.

Lemma specified_sweep_selecting current sorted :
  specified_sweep current sorted = (selecting current sorted).*2.
Proof.
  revert current. induction sorted as [|seg rest IH]; intros current; simpl; [done|].
  destruct current as [c|]; [destruct (c <? seg.1)|]; simpl; by rewrite ?IH.
Qed.

Lemma selecting_hit points current segs :
  hits_all points segs -> hits_all points (selecting current segs).
Proof.
  unfold hits_all. intros H. revert current.
  induction H as [|seg rest Hseg _ IH]; intros current; simpl; [constructor|].
  destruct current as [c|]; [destruct (c <? seg.1)|]; auto.
Qed.

Lemma selecting_separated c segs :
  Forall well_formed segs -> separated_from c (selecting (Some c) segs).
Proof.
  intros H. revert c.
  induction H as [|seg rest Hseg _ IH]; intros c; simpl; [done|].
  destruct (Z.ltb_spec c seg.1); simpl; auto.
Qed.

Lemma filter_length_lt {A} (P Q : A -> Prop) `{!forall x, Decision (P x)}
    `{!forall x, Decision (Q x)} (l : list A) :
  (forall x, P x -> Q x) -> Exists (fun x => Q x /\ ~ P x) l ->
  (length (filter P l) < length (filter Q l))%nat.
Proof.
  intros HPQ Hex.
  assert (Hle : forall l', (length (filter P l') <= length (filter Q l'))%nat).
  { induction l' as [|x l' IH]; simpl; [done|].
    rewrite !filter_cons. destruct (decide (P x)) as [HP|HP].
    - destruct (decide (Q x)) as [|HQ]; [simpl; lia|]. by destruct HQ; auto.
    - destruct (decide (Q x)); simpl; lia. }
  induction Hex as [x l' [HQ HnP]|x l' _ IH]; rewrite !filter_cons.
  - destruct (decide (P x)); [done|]. destruct (decide (Q x)); [|done].
    simpl. specialize (Hle l'). lia.
  - destruct (decide (P x)) as [HP|HP].
    + destruct (decide (Q x)) as [|HQ]; [simpl; lia|]. by destruct HQ; auto.
    + destruct (decide (Q x)); simpl; lia.
Qed.

(** A cover needs one point of its own for each segment of a separated
    chain. *)
Lemma chain_lower_bound chain c (points : list Z) :
  separated_from c chain -> hits_all points chain ->
  (length chain <= length (filter (fun p => (c < p)%Z) points))%nat.
Proof.
  revert c. induction chain as [|seg rest IH]; intros c Hsep Hhit; simpl; [lia|].
  destruct Hsep as (Hc & Hseg & Hsep). inversion Hhit as [|? ? Hhere Hrest]; subst.
  specialize (IH seg.2 Hsep Hrest).
  assert ((length (filter (fun p => (seg.2 < p)%Z) points)
           < length (filter (fun p => (c < p)%Z) points))%nat); [|lia].
  apply filter_length_lt; [intros p; lia|].
  unfold hit_by, covers in Hhere. eapply Exists_impl; [exact Hhere|].
  simpl. intros p. lia.
Qed.

(** The specified sweep is optimal: no cover has fewer points.  The order
    of the segments plays no part in this bound. *)
Lemma specified_sweep_minimum segs (points : list Z) :
  Forall well_formed segs -> hits_all points segs ->
  (length (specified_sweep None segs) <= length points)%nat.
Proof.
  intros Hwf Hhit. rewrite specified_sweep_selecting, length_fmap.
  pose proof (selecting_hit points None segs Hhit) as Hchain.
  destruct Hwf as [|seg rest Hseg Hrest]; simpl in *; [lia|].
  assert (Hsep : separated_from (seg.1 - 1) (seg :: selecting (Some seg.2) rest)).
  { simpl. unfold well_formed in Hseg. repeat split; [lia|lia|].
    by apply selecting_separated. }
  pose proof (chain_lower_bound _ _ points Hsep Hchain) as Hlen. simpl in Hlen.
  etrans; [exact Hlen|]. apply length_filter.
Qed.

(** So is the solver, on input without a right end [-1]. *)
Lemma solver_minimum_without_sentinel segs count selected (points : list Z) :
  Forall well_formed segs -> Forall (fun seg : segment => seg.2 <> -1) segs ->
  find_minimum_points_to_cover_all_segments segs = Ret (count, selected) ->
  hits_all points segs ->
  (length selected <= length points)%nat.
Proof.
  intros Hwf Hne Hret Hhit. rewrite solver_returns in Hret by done.
  inversion Hret; subst.
  rewrite sweep_points_specified by (by rewrite std_sort_perm).
  apply specified_sweep_minimum.
  - by rewrite std_sort_perm.
  - unfold hits_all. by rewrite std_sort_perm.
Qed.

(** And it returns the specified result there. *)
Lemma solver_specified_without_sentinel segs :
  Forall well_formed segs -> Forall (fun seg : segment => seg.2 <> -1) segs ->
  find_minimum_points_to_cover_all_segments segs = Ret (specified_cover segs).
Proof.
  intros Hwf Hne. rewrite solver_returns by done. unfold specified_cover.
  by rewrite sweep_points_specified by (by rewrite std_sort_perm).
Qed.

(** The input of the two theorems below has one order by right end, so
    the choice made for [std_sort] plays no part in them. *)
Lemma sentinel_input_one_order sorted :
  sorted ≡ₚ [(-3, -1); (-2, 0)] -> ends_ascending sorted ->
  sweep_points (-1) sorted = [-1; 0].
Proof.
  intros Hperm Hsorted. symmetry in Hperm.
  apply Permutation_length_2_inv in Hperm as [->| ->]; [done|].
  inversion Hsorted as [|? ? _ Hle]; subst.
  inversion Hle as [|? ? Hbad _]; subst. simpl in Hbad. lia.
Qed.

(** C1.  Minimality fails where the chosen point is [-1], the value the
    loop keeps for "no point chosen": on (-3,-1), (-2,0) the solver returns
    the two points -1 and 0, and the single point -1 hits both segments. *)
Theorem minimum_cover_broken_by_sentinel :
  Forall well_formed [(-3, -1); (-2, 0)] /\
  find_minimum_points_to_cover_all_segments [(-3, -1); (-2, 0)] = Ret (2, [-1; 0]) /\
  hits_all [-1] [(-3, -1); (-2, 0)] /\
  (length [-1]%Z < length [-1; 0]%Z)%nat.
Proof.
  split; [|split; [|split]].
  - repeat constructor; unfold well_formed; simpl; lia.
  - vm_compute. reflexivity.
  - repeat constructor; unfold covers; simpl; lia.
  - simpl. lia.
Qed.

(** C5.  The same input separates the solver from the specified sweep:
    after point -1 is chosen, the specified sweep finds (-2,0) covered,
    the solver takes -1 for "no point chosen" and selects 0 as well. *)
Theorem sweep_differs_from_specified_at_sentinel :
  Forall well_formed [(-3, -1); (-2, 0)] /\
  find_minimum_points_to_cover_all_segments [(-3, -1); (-2, 0)] = Ret (2, [-1; 0]) /\
  specified_cover [(-3, -1); (-2, 0)] = (1, [-1]).
Proof.
  split; [|split].
  - repeat constructor; unfold well_formed; simpl; lia.
  - vm_compute. reflexivity.
  - vm_compute. reflexivity.
Qed.

(** The reader delivers this input from a two-segment file. *)
Example sentinel_input_from_file :
  read_segments_from_file (fun _ => Some ["2"; "-3 -1"; "-2 0"]) "segments.txt"
  = Ret (ReadResult [(-3, -1); (-2, 0)] false).
Proof. vm_compute. reflexivity. Qed.

(** The examples of the specification. *)
Example cover_of_chain :
  find_minimum_points_to_cover_all_segments [(1, 2); (2, 3); (3, 4)] = Ret (2, [2; 4]).
Proof. vm_compute. reflexivity. Qed.

Example cover_of_nothing :
  find_minimum_points_to_cover_all_segments [] = Ret (0, []).
Proof. reflexivity. Qed.

Example cover_of_single_point :
  find_minimum_points_to_cover_all_segments [(5, 5)] = Ret (1, [5]).
Proof. vm_compute. reflexivity. Qed.

(** ** Reading the segments file *)

(** Once [segments_read] has reached the declared count, the loop ends. *)
Lemma read_loop_done total lines st :
  total <= segments_read st -> read_loop total lines st = Ret st.
Proof.
  intros H. destruct lines as [|line rest]; simpl; [done|].
  destruct (Z.ltb_spec (segments_read st) total); [lia|done].
Qed.

Lemma read_loop_skips_blank total lines st1 st2 :
  segments_data st1 = segments_data st2 ->
  segments_read st1 = segments_read st2 ->
  same_segments (read_loop total lines st1)
    (read_loop total (filter (fun line => ~ blank line) lines) st2).
Proof.
  revert st1 st2. induction lines as [|line rest IH]; intros st1 st2 Hd Hr.
  { simpl. auto. }
  destruct (Z.ltb_spec (segments_read st1) total) as [Hlt|Hge].
  - rewrite filter_cons. unfold blank at 1.
    destruct (decide (~ line = "")) as [Hne|He].
    + simpl. rewrite <- Hr. destruct (Z.ltb_spec (segments_read st1) total); [|lia].
      destruct (decide (line = "")); [done|].
      destruct (extract_two_ints line) as [[a b]|]; [|done].
      apply IH; simpl; congruence.
    + simpl. destruct (Z.ltb_spec (segments_read st1) total); [|lia].
      destruct (decide (line = "")) as [_|Hne]; [|by destruct He].
      by apply IH.
  - rewrite !read_loop_done by lia. simpl. auto.
Qed.

(** When the file ends first: every line is blank or a segment, and the
    segments are too few. *)
Lemma read_loop_end_of_file total lines st :
  Forall (fun line => blank line \/ is_Some (extract_two_ints line)) lines ->
  segments_read st
    + Z.of_nat (length (filter (fun line => ~ blank line) lines)) < total ->
  exists st', read_loop total lines st = Ret st' /\ segments_read st' < total.
Proof.
  intros H. revert st.
  induction H as [|line rest Hline _ IH]; intros st Hcount; simpl.
  { exists st. simpl in Hcount. split; [done|lia]. }
  rewrite filter_cons in Hcount. unfold blank at 1 in Hcount.
  pose proof (Nat2Z.is_nonneg (length (filter (fun line => ~ blank line) rest))).
  destruct (decide (~ line = "")) as [Hne|He]; simpl in Hcount.
  - destruct (Z.ltb_spec (segments_read st) total); [|lia].
    destruct (decide (line = "")); [done|].
    destruct Hline as [Hb|[[a b] Hp]]; [done|]. rewrite Hp.
    apply IH. simpl. lia.
  - destruct (Z.ltb_spec (segments_read st) total); [|lia].
    destruct (decide (line = "")) as [_|Hne]; [|by destruct He].
    apply IH. simpl. lia.
Qed.

(** The loop counts what it stores, and never beyond the declared count. *)
Lemma read_loop_count total lines st st' :
  read_loop total lines st = Ret st' ->
  Z.of_nat (length (segments_data st)) = segments_read st ->
  segments_read st <= total ->
  Z.of_nat (length (segments_data st')) = segments_read st' /\
  segments_read st' <= total.
Proof.
  revert st. induction lines as [|line rest IH]; intros st Hret Hlen Hle; simpl in Hret.
  { by inversion Hret; subst. }
  destruct (Z.ltb_spec (segments_read st) total) as [Hlt|Hge].
  - destruct (decide (line = "")).
    + apply IH in Hret; simpl; auto.
    + destruct (extract_two_ints line) as [[a b]|]; [|done].
      apply IH in Hret; simpl; [done| |lia].
      rewrite length_app. simpl. lia.
  - by inversion Hret; subst.
Qed.

(** Lines after the last declared segment play no part. *)
Lemma read_loop_stops total lines extra st st' :
  read_loop total lines st = Ret st' -> total <= segments_read st' ->
  read_loop total (lines ++ extra) st = Ret st'.
Proof.
  revert st. induction lines as [|line rest IH]; intros st Hret Hfull.
  - simpl in Hret. inversion Hret; subst. by apply read_loop_done.
  - simpl in *. destruct (Z.ltb_spec (segments_read st) total) as [Hlt|Hge].
    + destruct (decide (line = "")); [by apply IH|].
      destruct (extract_two_ints line) as [[a b]|]; [by apply IH|done].
    + done.
Qed.

Lemma extract_int_range s v rest :
  extract_int s = Some (v, rest) -> INT_MIN <= v <= INT_MAX.
Proof.
  unfold extract_int. intros H.
  destruct (match skip_space s with
            | String "-" r => (true, r)
            | String "+" r => (false, r)
            | _ => (false, skip_space s)
            end) as [negative s2].
  destruct (read_digits s2 None) as [[v0|] rest0]; [|done].
  destruct (in_int_range (if negative then - v0 else v0)) eqn:E; [|done].
  inversion H; subst. by apply in_int_range_spec.
Qed.

(** C9.  With a header line that declares N >= 0 segments: deleting the
    empty lines from the file changes nothing in what the reader returns
    or throws; and when every line is empty or a segment line and fewer
    than N of them are segment lines, the reader returns nothing and
    throws "Unexpected end of file". *)
Theorem blank_lines_and_premature_end
    (fs : file_system) (filename first_line : string) (lines : list string)
    (N : Z) (rest : string) :
  fs filename = Some (first_line :: lines) ->
  extract_int first_line = Some (N, rest) ->
  0 <= N ->
  (forall fs' : file_system,
     fs' filename = Some (first_line :: filter (fun line => line <> "") lines) ->
     read_segments_from_file fs' filename = read_segments_from_file fs filename) /\
  (Forall (fun line => line = "" \/ is_Some (extract_two_ints line)) lines ->
   Z.of_nat (length (filter (fun line => line <> "") lines)) < N ->
   read_segments_from_file fs filename
   = Throw (runtime_error "Unexpected end of file")).
Proof.
  intros Hfile Hhead HN. split.
  - intros fs' Hfile'. unfold read_segments_from_file.
    rewrite Hfile, Hfile', Hhead.
    pose proof (read_loop_skips_blank N lines (ReaderState [] 0 0 0)
                  (ReaderState [] 0 0 0) eq_refl eq_refl) as Hsame.
    unfold blank in Hsame.
    destruct (read_loop N lines _) as [st1|e1|],
             (read_loop N (filter _ lines) _) as [st2|e2|];
      simpl in *; try done; [|congruence].
    destruct Hsame as [Hd Hr]. by rewrite Hd, Hr.
  - intros Hlines Hfew. unfold read_segments_from_file. rewrite Hfile, Hhead.
    destruct (read_loop_end_of_file N lines (ReaderState [] 0 0 0)) as (st' & Hst & Hlt).
    { exact Hlines. }
    { simpl. exact Hfew. }
    rewrite Hst. simpl. by destruct (Z.ltb_spec (segments_read st') N); [|lia].
Qed.

(** C10.  With a header line that declares N >= 0 segments, a call that
    returns has read exactly N segments and has not logged the
    count-mismatch warning; and whatever lines follow in the file, they
    are not read as segments: the call returns the same. *)
Theorem returns_declared_count
    (fs : file_system) (filename first_line : string) (lines : list string)
    (N : Z) (rest : string) (result : read_result) :
  fs filename = Some (first_line :: lines) ->
  extract_int first_line = Some (N, rest) ->
  0 <= N ->
  read_segments_from_file fs filename = Ret result ->
  Z.of_nat (length (segments_returned result)) = N /\
  count_mismatch_warning result = false /\
  (forall (fs' : file_system) (extra : list string),
     fs' filename = Some (first_line :: lines ++ extra) ->
     read_segments_from_file fs' filename = Ret result).
Proof.
  intros Hfile Hhead HN. unfold read_segments_from_file. rewrite Hfile, Hhead.
  intros Hret. apply bind_Ret_inv in Hret as (st & Hloop & Hret).
  pose proof (read_loop_count _ _ _ _ Hloop eq_refl ltac:(simpl; lia)) as [Hlen Hle].
  destruct (Z.ltb_spec (segments_read st) N) as [|Hge]; [done|].
  inversion Hret; subst result; simpl.
  assert (Hcount : Z.of_nat (length (segments_data st)) = N) by lia.
  split; [done|]. split.
  - unfold size_differs. rewrite Hcount.
    apply extract_int_range in Hhead. unfold INT_MAX in Hhead.
    rewrite Z.mod_small by lia. by rewrite Z.eqb_refl.
  - intros fs' extra Hfile'. rewrite Hfile', Hhead.
    rewrite (read_loop_stops _ _ extra _ _ Hloop Hge). simpl.
    by destruct (Z.ltb_spec (segments_read st) N); [lia|].
Qed.

Lemma blank_lines_and_premature_end_witness :
  let fs : file_system := fun _ => Some ["3"; "1 2"; ""; "7 4"; ""] in
  let fs' : file_system := fun _ => Some ["3"; "1 2"; "7 4"] in
  read_segments_from_file fs' "segments.txt" = read_segments_from_file fs "segments.txt" /\
  read_segments_from_file fs "segments.txt"
  = Throw (runtime_error "Unexpected end of file").
Proof.
  intros fs fs'.
  destruct (blank_lines_and_premature_end fs "segments.txt" "3"
              ["1 2"; ""; "7 4"; ""] 3 "") as [Hskip Hend].
  - reflexivity.
  - reflexivity.
  - lia.
  - split.
    + apply Hskip. reflexivity.
    + apply Hend.
      * constructor; [right; vm_compute; eauto|].
        constructor; [by left|].
        constructor; [right; vm_compute; eauto|].
        constructor; [by left|]. constructor.
      * vm_compute. reflexivity.
Defined.

Lemma returns_declared_count_witness :
  let fs : file_system := fun _ => Some ["2"; ""; "1 2"; "9 4"; "junk"] in
  let result := ReadResult [(1, 2); (4, 9)] false in
  read_segments_from_file fs "segments.txt" = Ret result /\
  Z.of_nat (length (segments_returned result)) = 2 /\
  count_mismatch_warning result = false /\
  (forall (fs' : file_system) (extra : list string),
     fs' "segments.txt" = Some ("2" :: [""; "1 2"; "9 4"; "junk"] ++ extra) ->
     read_segments_from_file fs' "segments.txt" = Ret result).
Proof.
  intros fs result.
  assert (Hret : read_segments_from_file fs "segments.txt" = Ret result).
  { vm_compute. reflexivity. }
  split; [exact Hret|].
  refine (returns_declared_count fs "segments.txt" "2"
            [""; "1 2"; "9 4"; "junk"] 2 "" result _ _ _ Hret).
  - reflexivity.
  - reflexivity.
  - lia.
Defined.

(** A negative count in the header is the one way to the warning: the
    loop reads nothing, nothing is missing, and 0 differs from the count
    converted to [size_t]. *)
Example negative_count_warns :
  read_segments_from_file (fun _ => Some ["-3"; "1 2"]) "segments.txt"
  = Ret (ReadResult [] true).
Proof. vm_compute. reflexivity. Qed.

(** ** The triangle program: degenerate input and faults *)

(** C8.  A triangle with zero rows, and a triangle whose first row is
    empty, give total 0 and the empty path, whatever the allocator does:
    the early return comes before the first allocation. *)
Theorem degenerate_triangle :
  minimum_total [] = Ret (0, []) /\
  (forall rest : table, minimum_total ([] :: rest) = Ret (0, [])) /\
  (forall alloc_ok, minimum_total_under alloc_ok [] = Ret (0, [])) /\
  (forall alloc_ok (rest : table),
     minimum_total_under alloc_ok ([] :: rest) = Ret (0, [])).
Proof. repeat split. Qed.

(** A refused allocation of the table is a fault inside the [try]
    block. *)
Lemma refused_table_is_fault alloc_ok (row : list Z) (rest : table) (x : Z) :
  alloc_ok (S (length rest)) = false ->
  minimum_total_try alloc_ok ((x :: row) :: rest) = Throw bad_alloc.
Proof.
  intros H. unfold minimum_total_try, allocate. simpl length. by rewrite H.
Qed.

(** What the handler makes of a fault: the sentinel when the allocator
    grants the message, and [std::bad_alloc] when it does not. *)
Lemma handler_outcome alloc_ok (triangle : table) (error : exception) :
  minimum_total_try alloc_ok triangle = Throw error ->
  minimum_total_under alloc_ok triangle
  = if alloc_ok (String.length
                   ("Error in minimum path calculation: " +:+ what error))
    then Ret (2147483647, []) else Throw bad_alloc.
Proof.
  intros H. unfold minimum_total_under, minimum_total_catch, allocate.
  rewrite H. by destruct (alloc_ok _).
Qed.

(** C7.  A fault inside the [try] block is not always turned into the
    sentinel.  When the allocator refuses every request, the table of any
    triangle with a first entry cannot be allocated, which is a fault
    inside the [try] block; the handler cannot allocate its message
    either, and [minimum_total] leaves with [std::bad_alloc] instead of
    returning the largest [int] with the empty path. *)
Theorem fault_propagates_from_handler (x : Z) (row : list Z) (rest : table) :
  let triangle := (x :: row) :: rest in
  minimum_total_try (fun _ => false) triangle = Throw bad_alloc /\
  minimum_total_under (fun _ => false) triangle = Throw bad_alloc /\
  minimum_total_under (fun _ => false) triangle <> Ret (2147483647, []).
Proof.
  intros triangle.
  assert (Hfault : minimum_total_try (fun _ => false) triangle = Throw bad_alloc).
  { by apply refused_table_is_fault. }
  assert (Hleaves : minimum_total_under (fun _ => false) triangle = Throw bad_alloc).
  { by rewrite (handler_outcome _ _ _ Hfault). }
  split; [exact Hfault|]. split; [exact Hleaves|]. by rewrite Hleaves.
Qed.

(** The triangle of three rows: under the allocator that refuses every
    request, and under one that refuses the table only. *)
Example fault_in_three_rows :
  minimum_total_under (fun _ => false) [[1]; [1; 1]; [1; 1; 1]] = Throw bad_alloc /\
  minimum_total_under (fun k => bool_decide (k <> 3)%nat) [[1]; [1; 1]; [1; 1; 1]]
  = Ret (2147483647, []).
Proof. split; vm_compute; reflexivity. Qed.

(** When memory does not run out, [minimum_total] does not throw. *)
Lemma minimum_total_never_throws triangle e :
  minimum_total triangle <> Throw e.
Proof.
  unfold minimum_total, minimum_total_under, minimum_total_catch, allocate.
  by destruct (minimum_total_try (fun _ => true) triangle).
Qed.

(** ** The recurrence table *)

Lemma shape_from_lookup b rows i row :
  shape_from b rows -> rows !! i = Some row -> length row = (b + i)%nat.
Proof.
  revert b i. induction rows as [|r rest IH]; intros b i Hs Hi; [done|].
  destruct Hs as [Hr Hs]. destruct i as [|i]; simpl in Hi.
  - inversion Hi; subst. lia.
  - rewrite (IH (S b) i Hs Hi). lia.
Qed.

Lemma dp_table_length op rows : length (dp_table op rows) = length rows.
Proof.
  induction rows as [|row rest IH]; simpl; [done|].
  destruct (dp_table op rest) as [|below t]; simpl in *; [|lia].
  by rewrite <- IH.
Qed.

Lemma dp_table_cons op row rest :
  exists d, dp_table op (row :: rest) = d :: dp_table op rest /\
    (rest = [] -> d = row) /\
    (forall below t, dp_table op rest = below :: t -> d = dp_row op row below).
Proof.
  simpl. destruct (dp_table op rest) as [|below t] eqn:E.
  - exists row. split; [done|]. split; [done|]. intros; discriminate.
  - exists (dp_row op row below). split; [done|]. split.
    + intros ->. discriminate.
    + by intros ? ? [= <- <-].
Qed.

Lemma dp_table_drop op rows i :
  drop i (dp_table op rows) = dp_table op (drop i rows).
Proof.
  revert i. induction rows as [|row rest IH]; intros i.
  { simpl. by rewrite !drop_nil. }
  destruct i as [|i]; [done|].
  destruct (dp_table_cons op row rest) as (d & -> & _). simpl. apply IH.
Qed.

Lemma lookup_via_drop {A} (l : list A) i : l !! i = drop i l !! 0%nat.
Proof. by rewrite lookup_drop, Nat.add_0_r. Qed.

(** The last row of the table is the last row of the triangle. *)
Lemma dp_table_last op rows i row :
  rows !! i = Some row -> S i = length rows ->
  dp_table op rows !! i = Some row.
Proof.
  intros Hi Hlast.
  rewrite lookup_via_drop, dp_table_drop.
  rewrite (drop_S _ _ _ Hi), drop_ge by lia. done.
Qed.

(** Any other row comes from the row below it. *)
Lemma dp_table_step op rows i row below :
  rows !! i = Some row -> dp_table op rows !! S i = Some below ->
  dp_table op rows !! i = Some (dp_row op row below).
Proof.
  intros Hi Hbelow.
  rewrite lookup_via_drop, dp_table_drop.
  rewrite (drop_S _ _ _ Hi).
  destruct (dp_table_cons op row (drop (S i) rows)) as (d & -> & _ & Hd).
  simpl. f_equal.
  rewrite <- dp_table_drop in Hd.
  rewrite lookup_via_drop in Hbelow.
  destruct (drop (S i) (dp_table op rows)) as [|b t]; [done|].
  simpl in Hbelow. inversion Hbelow; subst. by apply (Hd below t).
Qed.

Lemma dp_row_length op row below : length (dp_row op row below) = length row.
Proof. unfold dp_row. by rewrite length_imap. Qed.

Lemma dp_row_lookup op row below j t :
  row !! j = Some t ->
  dp_row op row below !! j = Some (op t (Z.min (below !!! j) (below !!! S j))).
Proof. intros H. unfold dp_row. by rewrite list_lookup_imap, H. Qed.

(** The table has the shape of the triangle. *)
Lemma dp_table_row_length op rows i row d :
  rows !! i = Some row -> dp_table op rows !! i = Some d ->
  length d = length row.
Proof.
  intros Hi Hd.
  destruct (dp_table op rows !! S i) as [below|] eqn:E.
  - rewrite (dp_table_step _ _ _ _ _ Hi E) in Hd. inversion Hd; subst.
    apply dp_row_length.
  - apply lookup_ge_None in E. rewrite dp_table_length in E.
    pose proof (lookup_lt_Some _ _ _ Hi) as Hlt.
    rewrite (dp_table_last _ _ _ _ Hi) in Hd by lia. by inversion Hd.
Qed.

Lemma dp_table_lookup_is_Some op rows i row :
  rows !! i = Some row -> exists d, dp_table op rows !! i = Some d.
Proof.
  intros Hi. apply lookup_lt_Some in Hi.
  apply lookup_lt_is_Some. by rewrite dp_table_length.
Qed.

(** What the program computes stays in [int]. *)
Lemma int_add_is_int a b : is_int (int_add a b).
Proof. apply wrap_int_range. Qed.

Lemma dp_table_int rows : int_entries rows -> int_entries (dp_table int_add rows).
Proof.
  unfold int_entries. induction 1 as [|row rest Hrow Hrest IH]; simpl; [constructor|].
  destruct (dp_table int_add rest) as [|below t]; [by repeat constructor|].
  constructor; [|done].
  unfold dp_row. apply Forall_lookup_2. intros j z Hz.
  rewrite list_lookup_imap in Hz.
  destruct (row !! j); simpl in Hz; inversion Hz; subst. apply int_add_is_int.
Qed.

(** Without overflow the program computes the recurrence over the
    integers. *)
Lemma dp_table_no_overflow rows :
  no_overflow rows -> dp_table int_add rows = dp_table Z.add rows.
Proof.
  unfold no_overflow, int_entries.
  induction rows as [|row rest IH]; simpl; [done|].
  destruct (dp_table Z.add rest) as [|below t] eqn:E.
  - intros _. pose proof (dp_table_length Z.add rest) as H. rewrite E in H.
    destruct rest; [done|discriminate].
  - intros Hall. inversion Hall as [|? ? Hrow Ht]; subst.
    rewrite (IH Ht). f_equal.
    unfold dp_row in *. apply list_eq. intros j.
    rewrite !list_lookup_imap. destruct (row !! j) as [x|] eqn:Ej; simpl; [|done].
    f_equal. unfold int_add. apply wrap_int_id.
    rewrite Forall_lookup in Hrow. apply (Hrow j).
    by rewrite list_lookup_imap, Ej.
Qed.

(** ** The loops of [minimum_total] fill the recurrence table *)

Lemma seq_split s n pre x post :
  seq s n = pre ++ x :: post -> x = (s + length pre)%nat /\ (length pre < n)%nat.
Proof.
  intros H.
  assert (Hx : seq s n !! length pre = Some x).
  { rewrite H. by rewrite list_lookup_middle. }
  by apply lookup_seq in Hx.
Qed.

Lemma rev_seq_split n pre x post :
  rev (seq 0 n) = pre ++ x :: post ->
  x = (n - 1 - length pre)%nat /\ (length pre < n)%nat.
Proof.
  intros H. apply (f_equal (@rev nat)) in H.
  rewrite rev_involutive, rev_app_distr in H. simpl in H.
  rewrite <- app_assoc in H. simpl in H.
  pose proof (f_equal length H) as Hlen.
  rewrite length_seq, length_app in Hlen. simpl in Hlen.
  rewrite !length_rev in Hlen.
  apply seq_split in H as [Hx _]. rewrite length_rev in Hx. lia.
Qed.

Lemma at2_lookup (t : table) i j row v :
  t !! i = Some row -> row !! j = Some v -> at2 t i j = Ret v.
Proof. intros Hi Hj. unfold at2. by rewrite Hi, Hj. Qed.

Lemma set2_lookup (t : table) i j v row :
  t !! i = Some row -> (j < length row)%nat ->
  set2 t i j v = Ret (<[i := <[j := v]> row]> t).
Proof.
  intros Hi Hj. unfold set2. rewrite Hi. by destruct (decide (j < length row)%nat).
Qed.

Lemma same_shape_lookup (dp triangle : table) i row :
  same_shape dp triangle -> triangle !! i = Some row ->
  exists d, dp !! i = Some d /\ length d = length row.
Proof.
  intros [Hlen Hrows] Hi.
  destruct (lookup_lt_is_Some_2 dp i) as [d Hd].
  { rewrite Hlen. by apply lookup_lt_Some in Hi. }
  exists d. split; [done|]. by apply (Hrows i).
Qed.

Lemma same_shape_insert (dp triangle : table) i d d' :
  same_shape dp triangle -> dp !! i = Some d -> length d' = length d ->
  same_shape (<[i := d']> dp) triangle.
Proof.
  intros [Hlen Hrows] Hd Hd'. split; [by rewrite length_insert|].
  intros k e row He Hrow. destruct (decide (k = i)) as [->|Hne].
  - rewrite list_lookup_insert_eq in He by (by apply lookup_lt_Some in Hd).
    inversion He; subst. rewrite Hd'. by apply (Hrows i).
  - rewrite list_lookup_insert_ne in He by done. by apply (Hrows k).
Qed.

Lemma resize_rows_shape (triangle : table) :
  exists dp,
    resize_rows (fun _ => true) triangle (length triangle)
      (replicate (length triangle) []) = Ret dp /\
    same_shape dp triangle.
Proof.
  set (n := length triangle).
  destruct (for_each_invariant
    (fun pre (dp : table) => length dp = n /\
       forall i d row, (i < length pre)%nat -> dp !! i = Some d ->
         triangle !! i = Some row -> length d = length row)
    (fun i (dp : table) =>
       size ← size_at triangle i; _ ← allocate (fun _ => true) size;
       Ret (<[i := replicate size 0]> dp))
    (seq 0 n) (replicate n [])) as (dp & Hrun & Hlen & Hrows).
  - split; [by rewrite length_replicate|]. simpl. intros; lia.
  - intros pre x post dp Hsplit [Hlen Hrows].
    apply seq_split in Hsplit as [-> Hx]. simpl in *.
    destruct (lookup_lt_is_Some_2 triangle (length pre) Hx) as [row Hrow].
    unfold size_at. rewrite Hrow. simpl.
    eexists. split; [done|]. split; [by rewrite length_insert|].
    intros i d row' Hi Hd Hrow'. rewrite length_app in Hi. simpl in Hi.
    destruct (decide (i = length pre)) as [->|Hne].
    + rewrite list_lookup_insert_eq in Hd by lia.
      inversion Hd; subst. rewrite length_replicate. congruence.
    + rewrite list_lookup_insert_ne in Hd by done.
      apply (Hrows i); [lia|done|done].
  - exists dp. split; [exact Hrun|]. split; [done|].
    intros i d row Hd Hrow. apply (Hrows i); [|done|done].
    rewrite length_seq. by apply lookup_lt_Some in Hrow.
Qed.

Lemma copy_last_row_spec (triangle dp : table) last :
  same_shape dp triangle ->
  triangle !! (length triangle - 1)%nat = Some last ->
  exists dp',
    copy_last_row triangle (length triangle) dp = Ret dp' /\
    same_shape dp' triangle /\
    dp' !! (length triangle - 1)%nat = Some last.
Proof.
  set (n := length triangle). intros Hshape Hlast.
  unfold copy_last_row, size_at. fold n. rewrite Hlast. simpl.
  destruct (for_each_invariant
    (fun pre (dp : table) => same_shape dp triangle /\
       exists d, dp !! (n - 1)%nat = Some d /\
         forall j, (j < length pre)%nat -> d !! j = last !! j)
    (fun j (dp : table) => v ← at2 triangle (n - 1) j; set2 dp (n - 1) j v)
    (seq 0 (length last)) dp) as (dp' & Hrun & Hshape' & d & Hd & Hsame).
  - split; [done|].
    destruct (same_shape_lookup _ _ _ _ Hshape Hlast) as (d & Hd & _).
    exists d. split; [done|]. simpl. intros; lia.
  - intros pre x post dp0 Hsplit (Hshape0 & d & Hd & Hsame).
    apply seq_split in Hsplit as [-> Hx]. simpl in *.
    destruct (lookup_lt_is_Some_2 last (length pre) Hx) as [v Hv].
    rewrite (at2_lookup _ _ _ _ _ Hlast Hv). simpl.
    destruct (same_shape_lookup _ _ _ _ Hshape0 Hlast) as (d0 & Hd0 & Hlen0).
    assert (d0 = d) as -> by congruence.
    rewrite (set2_lookup _ _ _ _ _ Hd) by lia.
    eexists. split; [done|]. split.
    + eapply same_shape_insert; [done|done|by rewrite length_insert].
    + exists (<[length pre := v]> d). split.
      * apply list_lookup_insert_eq. by apply lookup_lt_Some in Hd.
      * intros j Hj. rewrite length_app in Hj. simpl in Hj.
        destruct (decide (j = length pre)) as [->|Hne].
        -- rewrite list_lookup_insert_eq by lia. done.
        -- rewrite list_lookup_insert_ne by done. apply Hsame. lia.
  - exists dp'. split; [exact Hrun|]. split; [done|].
    rewrite Hd. f_equal. apply list_eq. intros j.
    destruct (same_shape_lookup _ _ _ _ Hshape' Hlast) as (d0 & Hd0 & Hlen0).
    assert (d0 = d) as -> by congruence.
    destruct (decide (j < length last)%nat) as [Hj|Hj].
    + apply Hsame. by rewrite length_seq.
    + rewrite !lookup_ge_None_2 by lia. done.
Qed.

(** The inner loop: row [i] of the table, from the rows below it. *)
Lemma fill_row_spec (triangle dp : table) i :
  well_formed_triangle triangle -> same_shape dp triangle ->
  (S i < length triangle)%nat ->
  (forall r, (i < r)%nat -> dp !! r = dp_table int_add triangle !! r) ->
  exists dp',
    fill_row triangle i dp = Ret dp' /\ same_shape dp' triangle /\
    forall r, (i <= r)%nat -> dp' !! r = dp_table int_add triangle !! r.
Proof.
  set (D := dp_table int_add triangle). intros Hwf Hshape Hi Hbelow.
  destruct (lookup_lt_is_Some_2 triangle i ltac:(lia)) as [row Hrow].
  destruct (lookup_lt_is_Some_2 triangle (S i) Hi) as [row' Hrow'].
  destruct (dp_table_lookup_is_Some int_add _ _ _ Hrow') as [below HDbelow].
  fold D in HDbelow.
  pose proof (dp_table_step int_add _ _ _ _ Hrow HDbelow) as HDi. fold D in HDi.
  pose proof (shape_from_lookup _ _ _ _ Hwf Hrow) as Hlen.
  pose proof (shape_from_lookup _ _ _ _ Hwf Hrow') as Hlen'.
  pose proof (dp_table_row_length int_add _ _ _ _ Hrow' HDbelow) as Hlenb.
  unfold fill_row, size_at. rewrite Hrow. simpl.
  destruct (for_each_invariant
    (fun pre (dp : table) => same_shape dp triangle /\
       (forall r, (i < r)%nat -> dp !! r = D !! r) /\
       exists d, dp !! i = Some d /\
         forall j, (j < length pre)%nat ->
           d !! j = dp_row int_add row below !! j)
    (fun j (dp : table) =>
       t ← at2 triangle i j;
       below ← at2 dp (i + 1) j;
       below_right ← at2 dp (i + 1) (j + 1);
       set2 dp i j (int_add t (Z.min below below_right)))
    (seq 0 (length row)) dp) as (dp' & Hrun & Hshape' & Hbelow' & d & Hd & Hsame).
  - split; [done|]. split; [done|].
    destruct (same_shape_lookup _ _ _ _ Hshape Hrow) as (d & Hd & _).
    exists d. split; [done|]. simpl. intros; lia.
  - intros pre x post dp0 Hsplit (Hshape0 & Hbelow0 & d & Hd & Hsame).
    apply seq_split in Hsplit as [-> Hx]. simpl in *.
    set (j := length pre) in *.
    destruct (lookup_lt_is_Some_2 row j Hx) as [t Ht].
    destruct (lookup_lt_is_Some_2 below j ltac:(lia)) as [a Ha].
    destruct (lookup_lt_is_Some_2 below (S j) ltac:(lia)) as [b Hb].
    assert (Hdp0 : dp0 !! (i + 1)%nat = Some below).
    { rewrite Nat.add_1_r, Hbelow0 by lia. done. }
    rewrite (at2_lookup _ _ _ _ _ Hrow Ht). simpl.
    rewrite (at2_lookup _ _ _ _ _ Hdp0 Ha). simpl.
    rewrite Nat.add_1_r with (n := j).
    rewrite (at2_lookup _ _ _ _ _ Hdp0 Hb). simpl.
    destruct (same_shape_lookup _ _ _ _ Hshape0 Hrow) as (d0 & Hd0 & Hlen0).
    assert (d0 = d) as -> by congruence.
    rewrite (set2_lookup _ _ _ _ _ Hd) by lia.
    eexists. split; [done|]. split; [|split].
    + eapply same_shape_insert; [done|done|by rewrite length_insert].
    + intros r Hr. rewrite list_lookup_insert_ne by lia. by apply Hbelow0.
    + exists (<[j := int_add t (Z.min a b)]> d). split.
      * apply list_lookup_insert_eq. by apply lookup_lt_Some in Hd.
      * intros k Hk. rewrite length_app in Hk. simpl in Hk. fold j in Hk.
        destruct (decide (k = j)) as [->|Hne].
        -- rewrite list_lookup_insert_eq by lia.
           rewrite (dp_row_lookup _ _ _ _ _ Ht).
           by rewrite (list_lookup_total_correct _ _ _ Ha),
                      (list_lookup_total_correct _ _ _ Hb).
        -- rewrite list_lookup_insert_ne by done. apply Hsame. lia.
  - exists dp'. split; [exact Hrun|]. split; [done|].
    intros r Hr. destruct (decide (r = i)) as [->|Hne]; [|apply Hbelow'; lia].
    rewrite Hd, HDi. f_equal. apply list_eq. intros k.
    destruct (same_shape_lookup _ _ _ _ Hshape' Hrow) as (d0 & Hd0 & Hlen0).
    assert (d0 = d) as -> by congruence.
    destruct (decide (k < length row)%nat) as [Hk|Hk].
    + apply Hsame. by rewrite length_seq.
    + rewrite !lookup_ge_None_2; [done| |lia]. rewrite dp_row_length. lia.
Qed.

(** The outer loop: the whole table. *)
Lemma fill_rows_spec (triangle dp : table) :
  well_formed_triangle triangle -> same_shape dp triangle ->
  dp !! (length triangle - 1)%nat
    = dp_table int_add triangle !! (length triangle - 1)%nat ->
  fill_rows triangle (length triangle) dp = Ret (dp_table int_add triangle).
Proof.
  set (D := dp_table int_add triangle). set (n := length triangle).
  intros Hwf Hshape Hlast. unfold fill_rows.
  destruct (for_each_invariant
    (fun pre (dp : table) => same_shape dp triangle /\
       forall r, (n - 1 - length pre <= r)%nat -> dp !! r = D !! r)
    (fill_row triangle) (rev (seq 0 (n - 1))) dp) as (dp' & Hrun & Hshape' & Hall).
  - split; [done|]. simpl. intros r Hr.
    destruct (decide (r = n - 1)%nat) as [->|Hne]; [done|].
    rewrite !lookup_ge_None_2; [done| |].
    + unfold D. rewrite dp_table_length. fold n. lia.
    + destruct Hshape as [-> _]. fold n. lia.
  - intros pre x post dp0 Hsplit (Hshape0 & Hbelow0).
    apply rev_seq_split in Hsplit as [-> Hx].
    destruct (fill_row_spec triangle dp0 (n - 1 - 1 - length pre)) as (dp1 & Hrun & Hshape1 & Hrows1).
    + done.
    + done.
    + fold n. lia.
    + intros r Hr. apply Hbelow0. lia.
    + exists dp1. split; [done|]. split; [done|].
      intros r Hr. apply Hrows1. rewrite length_app in Hr. simpl in Hr. lia.
  - rewrite Hrun. f_equal. apply list_eq. intros r. apply Hall.
    rewrite length_rev, length_seq. lia.
Qed.

(** The three loops together. *)
Lemma table_filled (triangle : table) :
  triangle <> [] -> well_formed_triangle triangle ->
  exists dp0 dp1,
    resize_rows (fun _ => true) triangle (length triangle)
      (replicate (length triangle) []) = Ret dp0 /\
    copy_last_row triangle (length triangle) dp0 = Ret dp1 /\
    fill_rows triangle (length triangle) dp1 = Ret (dp_table int_add triangle).
Proof.
  intros Hne Hwf.
  destruct (resize_rows_shape triangle) as (dp0 & Hrun0 & Hshape0).
  assert (Hn : (length triangle - 1 < length triangle)%nat).
  { destruct triangle; [done|]. simpl. lia. }
  destruct (lookup_lt_is_Some_2 triangle _ Hn) as [last Hlast].
  destruct (copy_last_row_spec _ _ _ Hshape0 Hlast) as (dp1 & Hrun1 & Hshape1 & Hrow1).
  exists dp0, dp1. split; [done|]. split; [done|].
  apply fill_rows_spec; [done|done|].
  rewrite Hrow1. symmetry. apply dp_table_last; [done|lia].
Qed.

(** ** The reconstruction loop walks down the table *)

Lemma bind_Ret {A B} (a : A) (f : A -> outcome B) : Ret a ≫= f = f a.
Proof. done. Qed.

Lemma int_sub_add_cancel t m : is_int m -> int_sub (int_add t m) t = m.
Proof.
  intros Hm. unfold int_sub, int_add.
  rewrite <- (wrap_int_id m) at 2 by done.
  apply wrap_int_congr. unfold wrap_int.
  pose proof (Z.div_mod (t + m + 2147483648) 4294967296 ltac:(lia)) as E.
  set (q := (t + m + 2147483648) / 4294967296) in *.
  set (r := (t + m + 2147483648) mod 4294967296) in *.
  replace (r - 2147483648 - t - m) with (- q * 4294967296) by lia.
  apply Z.mod_mul. lia.
Qed.

Lemma int_entries_lookup (t : table) i j row v :
  int_entries t -> t !! i = Some row -> row !! j = Some v -> is_int v.
Proof.
  intros Ht Hi Hj. unfold int_entries in Ht.
  rewrite Forall_lookup in Ht. specialize (Ht i row Hi).
  rewrite Forall_lookup in Ht. by apply (Ht j).
Qed.

Lemma reconstruct_spec (triangle : table) m :
  well_formed_triangle triangle -> int_entries triangle ->
  forall s c path,
    (1 <= s)%nat -> (s + m = length triangle)%nat -> (c < s)%nat ->
    exists c_last,
      for_each (seq s m)
        (reconstruct_step (fun _ => true) triangle (dp_table int_add triangle))
        (c, path)
      = Ret (c_last,
             path ++ (descend c (drop s triangle)
                        (drop s (dp_table int_add triangle))).*2).
Proof.
  set (D := dp_table int_add triangle). intros Hwf Hint.
  induction m as [|m IH]; intros s c path Hs Hsm Hc; simpl.
  { exists c. rewrite drop_ge by lia. simpl. by rewrite app_nil_r. }
  destruct (lookup_lt_is_Some_2 triangle (s - 1) ltac:(lia)) as [rowp Hrowp].
  destruct (lookup_lt_is_Some_2 triangle s ltac:(lia)) as [row Hrow].
  destruct (dp_table_lookup_is_Some int_add _ _ _ Hrow) as [d Hd]. fold D in Hd.
  pose proof (shape_from_lookup _ _ _ _ Hwf Hrowp) as Hlenp.
  pose proof (shape_from_lookup _ _ _ _ Hwf Hrow) as Hlen.
  pose proof (dp_table_row_length int_add _ _ _ _ Hrow Hd) as Hlend.
  assert (HDp : D !! (s - 1)%nat = Some (dp_row int_add rowp d)).
  { apply dp_table_step; [done|]. replace (S (s - 1)) with s by lia. done. }
  destruct (lookup_lt_is_Some_2 rowp c ltac:(lia)) as [t Ht].
  destruct (lookup_lt_is_Some_2 d c ltac:(lia)) as [a Ha].
  destruct (lookup_lt_is_Some_2 d (S c) ltac:(lia)) as [b Hb].
  assert (Hmin : is_int (Z.min a b)).
  { pose proof (dp_table_int _ Hint) as HD. fold D in HD.
    pose proof (int_entries_lookup _ _ _ _ _ HD Hd Ha).
    pose proof (int_entries_lookup _ _ _ _ _ HD Hd Hb).
    unfold is_int in *. lia. }
  rewrite (drop_S _ _ _ Hrow), (drop_S _ _ _ Hd). simpl.
  rewrite (list_lookup_total_correct _ _ _ Ha), (list_lookup_total_correct _ _ _ Hb).
  rewrite (at2_lookup _ _ _ _ _ HDp (dp_row_lookup _ _ _ _ _ Ht)). simpl.
  rewrite (list_lookup_total_correct _ _ _ Ha), (list_lookup_total_correct _ _ _ Hb).
  rewrite (at2_lookup _ _ _ _ _ Hrowp Ht). simpl.
  rewrite (at2_lookup _ _ _ _ _ Hd Ha). simpl.
  rewrite int_sub_add_cancel by done.
  destruct (Z.eqb_spec a (Z.min a b)) as [Heq|Hneq].
  - rewrite bool_decide_eq_true_2 by lia.
    destruct (lookup_lt_is_Some_2 row c ltac:(lia)) as [v Hv].
    rewrite (at2_lookup _ _ _ _ _ Hrow Hv). simpl.
    rewrite (list_lookup_total_correct _ _ _ Hv).
    destruct (IH (S s) c (path ++ [v]) ltac:(lia) ltac:(lia) ltac:(lia)) as (cl & ->).
    exists cl. by rewrite <- app_assoc.
  - rewrite bool_decide_eq_false_2 by lia.
    destruct (lookup_lt_is_Some_2 row (S c) ltac:(lia)) as [v Hv].
    rewrite Nat.add_1_r.
    rewrite (at2_lookup _ _ _ _ _ Hrow Hv). simpl.
    rewrite (list_lookup_total_correct _ _ _ Hv).
    destruct (IH (S s) (S c) (path ++ [v]) ltac:(lia) ltac:(lia) ltac:(lia)) as (cl & ->).
    exists cl. by rewrite <- app_assoc.
Qed.

(** What [minimum_total] returns on a well-formed triangle: the top cell
    of the table it filled, and the entries along the walk. *)
Lemma minimum_total_returns (triangle : table) :
  triangle <> [] -> well_formed_triangle triangle -> int_entries triangle ->
  minimum_total triangle
  = Ret (cell (dp_table int_add triangle) 0 0,
         cell triangle 0 0 ::
           (descend 0 (drop 1 triangle) (drop 1 (dp_table int_add triangle))).*2).
Proof.
  intros Hne Hwf Hint.
  destruct (table_filled triangle Hne Hwf) as (dp0 & dp1 & Hrun0 & Hrun1 & Hrun2).
  destruct triangle as [|row0 rest]; [done|]. clear Hne.
  pose proof Hwf as [Hlen0 _].
  destruct row0 as [|x row0]; [done|].
  unfold minimum_total, minimum_total_under, minimum_total_try, push_back, allocate.
  lazy beta iota zeta.
  set (triangle := (x :: row0) :: rest) in *.
  rewrite !bind_Ret, Hrun0, !bind_Ret, Hrun1, !bind_Ret, Hrun2, !bind_Ret.
  assert (Hx : at2 triangle 0 0 = Ret x) by done.
  rewrite Hx, !bind_Ret.
  destruct (reconstruct_spec triangle (length triangle - 1) Hwf Hint 1 0 ([] ++ [x]))
    as (cl & Hwalk); [lia|simpl; lia|lia|].
  rewrite Hwalk, !bind_Ret.
  destruct (dp_table_lookup_is_Some int_add triangle 0 (x :: row0) eq_refl) as [d0 Hd0].
  pose proof (dp_table_row_length int_add triangle 0 _ _ eq_refl Hd0) as Hlend.
  destruct d0 as [|y d0]; [done|].
  assert (Hy : at2 (dp_table int_add triangle) 0 0 = Ret y).
  { by apply (at2_lookup _ _ _ (y :: d0)). }
  rewrite Hy, !bind_Ret.
  unfold cell. rewrite (list_lookup_total_correct _ _ _ Hd0). done.
Qed.

(** ** The walk is a path, and its sum is the top cell *)

Lemma descend_length c rows drows :
  length (descend c rows drows) = (length rows `min` length drows)%nat.
Proof.
  revert c drows. induction rows as [|row rows IH]; intros c [|d drows]; simpl; auto.
Qed.

Lemma descend_follows c rows drows : follows c (descend c rows drows).*1.
Proof.
  revert c drows. induction rows as [|row rows IH]; intros c [|d drows]; simpl; auto.
  split; [|apply IH]. case_bool_decide; auto.
Qed.

Lemma descend_entries c rows drows :
  (descend c rows drows).*2 = entries_at rows (descend c rows drows).*1.
Proof.
  unfold entries_at.
  revert c drows. induction rows as [|row rows IH]; intros c [|d drows]; simpl; auto.
  f_equal. apply IH.
Qed.

(** The rule of the walk: from column [c], stay when the cell below is
    not larger than the cell below and to the right. *)
Lemma descend_rule c rows drows k a a' d :
  length rows = length drows ->
  (c :: (descend c rows drows).*1) !! k = Some a ->
  (c :: (descend c rows drows).*1) !! S k = Some a' ->
  drows !! k = Some d ->
  a' = if bool_decide (d !!! a <= d !!! S a) then a else S a.
Proof.
  revert c drows k. induction rows as [|row rows IH]; intros c [|d0 drows] k Hlen Ha Ha' Hd;
    try done.
  destruct k as [|k]; simpl in *.
  - by inversion Ha; inversion Ha'; inversion Hd; subst.
  - eapply (IH _ drows k); [lia|exact Ha|exact Ha'|exact Hd].
Qed.

Lemma follows_bound c cols k col :
  follows c cols -> cols !! k = Some col -> (col <= c + S k)%nat.
Proof.
  revert c k. induction cols as [|c' cols IH]; intros c k Hf Hk; [done|].
  destruct Hf as [Hc' Hf]. destruct k as [|k]; simpl in Hk.
  - inversion Hk; subst. lia.
  - specialize (IH c' k Hf Hk). lia.
Qed.

Section Sums.

(** [f] is the identity for the recurrence over the integers, and
    [wrap_int] for the program's. *)
Variable f : Z -> Z.
Hypothesis f_add : forall a b, f (a + f b) = f (a + b).

Lemma descend_sum rows : forall b c row d drest,
  shape_from b (row :: rows) -> (c < b)%nat ->
  Forall (Forall (fun z => f z = z)) (row :: rows) ->
  dp_table (fun x y => f (x + y)) (row :: rows) = d :: drest ->
  f (row !!! c + sum_list (descend c rows drest).*2) = d !!! c.
Proof.
  induction rows as [|row' rows IH]; intros b c row d drest [Hlen Hshape] Hc Hfix Htab.
  - simpl in Htab. injection Htab as <- <-. simpl. rewrite Z.add_0_r.
    apply Forall_cons in Hfix as [Hrow _].
    destruct (lookup_lt_is_Some_2 row c ltac:(lia)) as [t Ht].
    rewrite (list_lookup_total_correct _ _ _ Ht).
    rewrite Forall_lookup in Hrow. by apply (Hrow c).
  - destruct (dp_table_cons (fun x y => f (x + y)) row (row' :: rows))
      as (d0 & Heq & _ & Hd0).
    assert (d0 = d) as -> by congruence.
    assert (E : dp_table (fun x y => f (x + y)) (row' :: rows) = drest) by congruence.
    clear Htab. destruct drest as [|d' drest'].
    { pose proof (dp_table_length (fun x y => f (x + y)) (row' :: rows)) as Hl.
      by rewrite E in Hl. }
    rewrite (Hd0 d' drest' E).
    destruct (lookup_lt_is_Some_2 row c ltac:(lia)) as [t Ht].
    rewrite (list_lookup_total_correct _ _ _ (dp_row_lookup _ _ _ _ _ Ht)).
    rewrite (list_lookup_total_correct _ _ _ Ht).
    apply Forall_cons in Hfix as [_ Hfix'].
    simpl. set (c' := if bool_decide (d' !!! c <= d' !!! S c) then c else S c).
    assert (Hc' : (c' < S b)%nat) by (unfold c'; case_bool_decide; lia).
    pose proof (IH (S b) c' row' d' drest' Hshape Hc' Hfix' E) as Hrec.
    assert (Hmin : Z.min (d' !!! c) (d' !!! S c) = d' !!! c').
    { unfold c'. case_bool_decide; lia. }
    rewrite Hmin, <- Hrec. simpl. by rewrite f_add.
Qed.

End Sums.

(** No path has a smaller sum than the cell it starts from. *)
Lemma dp_lower_bound rows : forall b c row d drest cols,
  shape_from b (row :: rows) -> (c < b)%nat ->
  dp_table Z.add (row :: rows) = d :: drest ->
  follows c cols -> length cols = length rows ->
  d !!! c <= row !!! c + sum_list (entries_at rows cols).
Proof.
  induction rows as [|row' rows IH];
    intros b c row d drest cols [Hlen Hshape] Hc Htab Hf Hcols.
  - destruct cols; [|done]. simpl in Htab. injection Htab as <- <-.
    unfold entries_at. simpl. lia.
  - destruct (dp_table_cons Z.add row (row' :: rows)) as (d0 & Heq & _ & Hd0).
    assert (d0 = d) as -> by congruence.
    assert (E : dp_table Z.add (row' :: rows) = drest) by congruence.
    clear Htab. destruct drest as [|d' drest'].
    { pose proof (dp_table_length Z.add (row' :: rows)) as Hl. by rewrite E in Hl. }
    rewrite (Hd0 d' drest' E).
    destruct (lookup_lt_is_Some_2 row c ltac:(lia)) as [t Ht].
    rewrite (list_lookup_total_correct _ _ _ (dp_row_lookup _ _ _ _ _ Ht)).
    rewrite (list_lookup_total_correct _ _ _ Ht).
    destruct cols as [|c' cols]; [done|]. destruct Hf as [Hc' Hf].
    simpl in Hcols.
    assert (Hc'b : (c' < S b)%nat) by lia.
    pose proof (IH (S b) c' row' d' drest' cols Hshape Hc'b E Hf ltac:(lia)) as Hrec.
    unfold entries_at in *. simpl.
    destruct Hc' as [->| ->]; lia.
Qed.

(** ** The result of [minimum_total] *)

Lemma wrap_int_add_wrap a b : wrap_int (a + wrap_int b) = wrap_int (a + b).
Proof. rewrite (Z.add_comm a), wrap_int_idemp_add. f_equal. lia. Qed.

Lemma walk_is_path (triangle drows : table) :
  triangle <> [] -> length drows = length triangle ->
  is_path triangle (0%nat :: (descend 0 (drop 1 triangle) (drop 1 drows)).*1).
Proof.
  intros Hne Hlen. unfold is_path. simpl. split; [|split; [done|]].
  - rewrite length_fmap, descend_length, !length_drop, Hlen.
    destruct triangle; [done|]. simpl. lia.
  - apply descend_follows.
Qed.

Lemma path_sum_cons row (rest : table) c cols :
  path_sum (row :: rest) (c :: cols) = row !!! c + sum_list (entries_at rest cols).
Proof. done. Qed.

Lemma int_entries_fixed (t : table) :
  int_entries t -> Forall (Forall (fun z => wrap_int z = z)) t.
Proof.
  unfold int_entries. intros H. eapply Forall_impl; [exact H|].
  intros row Hrow. eapply Forall_impl; [exact Hrow|].
  intros z Hz. by apply wrap_int_id.
Qed.

(** Without overflow, the walk is a path whose sum is the returned
    total. *)
Lemma walk_attains (triangle : table) :
  triangle <> [] -> well_formed_triangle triangle -> int_entries triangle ->
  no_overflow triangle ->
  exists cols,
    is_path triangle cols /\
    minimum_total triangle
    = Ret (path_sum triangle cols, entries_at triangle cols).
Proof.
  intros Hne Hwf Hint Hno.
  rewrite minimum_total_returns by done.
  destruct triangle as [|row0 rest]; [done|].
  destruct (dp_table_cons int_add row0 rest) as (d0 & Heq & _).
  destruct (dp_table_cons Z.add row0 rest) as (dz & Heqz & _).
  pose proof (dp_table_no_overflow _ Hno) as Hsame.
  rewrite Heq, Heqz in Hsame. injection Hsame as -> Hrest.
  pose proof (walk_is_path (row0 :: rest) (dz :: dp_table Z.add rest) Hne) as Hpath.
  simpl in Hpath. rewrite dp_table_length in Hpath. specialize (Hpath eq_refl).
  exists (0%nat :: (descend 0 rest (dp_table Z.add rest)).*1). split; [done|].
  unfold cell. rewrite Heq, Hrest. simpl. rewrite path_sum_cons.
  rewrite <- descend_entries. do 2 f_equal. symmetry.
  apply (descend_sum (fun z => z) (fun a b => eq_refl) rest 1 0 row0 dz
           (dp_table Z.add rest)); [done|lia| |done].
  apply Forall_forall. intros row _. by apply Forall_forall.
Qed.

(** C3.  On a non-empty well-formed triangle of [int]s, [minimum_total]
    returns a path with one entry per row: the entries the triangle holds
    at columns that start at 0 and, from each row to the next, stay or
    move one to the right, staying exactly when the cell of the table
    below is not larger than the cell below and to the right (so a tie
    keeps the column).  The sum of the path agrees with the returned total
    modulo 2^32, and is equal to it when no cell of the recurrence
    overflows. *)
Theorem reconstructed_path (triangle : table) :
  triangle <> [] -> well_formed_triangle triangle -> int_entries triangle ->
  exists total path cols,
    minimum_total triangle = Ret (total, path) /\
    length path = length triangle /\
    is_path triangle cols /\
    path = entries_at triangle cols /\
    (forall k row c, triangle !! k = Some row -> cols !! k = Some c ->
       (c < length row)%nat) /\
    (forall k c c' d, cols !! k = Some c -> cols !! S k = Some c' ->
       dp_table int_add triangle !! S k = Some d ->
       c' = if bool_decide (d !!! c <= d !!! S c) then c else S c) /\
    wrap_int (sum_list path) = total /\
    (no_overflow triangle -> sum_list path = total).
Proof.
  intros Hne Hwf Hint.
  destruct triangle as [|row0 rest]; [done|].
  destruct (dp_table_cons int_add row0 rest) as (d0 & Heq & _).
  set (walk := descend 0 rest (dp_table int_add rest)).
  exists (d0 !!! 0%nat), (row0 !!! 0%nat :: walk.*2), (0%nat :: walk.*1).
  assert (Hlen : length walk = length rest).
  { unfold walk. rewrite descend_length, dp_table_length. lia. }
  assert (Hfollows : follows 0 walk.*1) by apply descend_follows.
  split; [|split; [|split; [|split; [|split; [|split; [|split]]]]]].
  - rewrite minimum_total_returns by done. unfold cell. by rewrite Heq.
  - simpl. by rewrite length_fmap, Hlen.
  - unfold is_path. simpl. by rewrite length_fmap, Hlen.
  - unfold entries_at. simpl. f_equal. apply descend_entries.
  - intros k row c Hrow Hc.
    pose proof (shape_from_lookup _ _ _ _ Hwf Hrow) as Hrowlen.
    destruct k as [|k]; simpl in Hc.
    + inversion Hc; subst. lia.
    + pose proof (follows_bound _ _ _ _ Hfollows Hc). lia.
  - intros k c c' d Hc Hc' Hd. rewrite Heq in Hd. simpl in Hd.
    apply (descend_rule 0 rest (dp_table int_add rest) k c c' d);
      [by rewrite dp_table_length|exact Hc|exact Hc'|exact Hd].
  - apply (descend_sum wrap_int wrap_int_add_wrap rest 1 0 row0 d0
             (dp_table int_add rest)); [done|lia|by apply int_entries_fixed|done].
  - intros Hno. pose proof (dp_table_no_overflow _ Hno) as Hsame.
    destruct (dp_table_cons Z.add row0 rest) as (dz & Heqz & _).
    rewrite Heq, Heqz in Hsame. injection Hsame as -> Hrest.
    unfold walk. rewrite Hrest.
    apply (descend_sum (fun z => z) (fun a b => eq_refl) rest 1 0 row0 dz
             (dp_table Z.add rest)); [done|lia| |done].
    apply Forall_forall. intros row _. by apply Forall_forall.
Qed.

(** C2.  On a non-empty well-formed triangle of [int]s in which no cell
    of the recurrence overflows, the total that [minimum_total] returns is
    the top cell of the recurrence and the least sum of a top-to-bottom
    path: no path has a smaller sum, and some path has this sum. *)
Theorem minimum_total_is_minimum (triangle : table) :
  triangle <> [] -> well_formed_triangle triangle -> int_entries triangle ->
  no_overflow triangle ->
  exists total path,
    minimum_total triangle = Ret (total, path) /\
    total = cell (dp_table Z.add triangle) 0 0 /\
    (forall cols, is_path triangle cols -> total <= path_sum triangle cols) /\
    (exists cols, is_path triangle cols /\ path_sum triangle cols = total).
Proof.
  intros Hne Hwf Hint Hno.
  destruct (walk_attains triangle Hne Hwf Hint Hno) as (cols & Hpath & Hret).
  assert (Htotal : path_sum triangle cols = cell (dp_table Z.add triangle) 0 0).
  { rewrite minimum_total_returns in Hret by done.
    injection Hret as Htop _. by rewrite <- Htop, (dp_table_no_overflow _ Hno). }
  exists (path_sum triangle cols), (entries_at triangle cols).
  split; [done|]. split; [done|]. split.
  - intros cols' (Hlen & Hhead & Hfollows). rewrite Htotal.
    destruct triangle as [|row0 rest]; [done|].
    destruct cols' as [|c0 cols']; [done|]. simpl in Hhead, Hfollows, Hlen.
    inversion Hhead; subst c0.
    destruct (dp_table_cons Z.add row0 rest) as (d0 & Heq & _).
    rewrite path_sum_cons. unfold cell. rewrite Heq. simpl.
    apply (dp_lower_bound rest 1 0 row0 d0 (dp_table Z.add rest));
      [done|lia|done|done|lia].
  - by exists cols.
Qed.

Ltac int_table :=
  repeat (first [apply Forall_nil | apply Forall_cons; split]);
  unfold is_int, INT_MIN, INT_MAX; lia.

Lemma reconstructed_path_witness :
  let triangle := [[1]; [1; 1]; [1; 1; 1]] in
  (triangle <> [] /\ well_formed_triangle triangle /\ int_entries triangle) /\
  exists total path cols,
    minimum_total triangle = Ret (total, path) /\
    length path = length triangle /\
    is_path triangle cols /\
    path = entries_at triangle cols /\
    (forall k row c, triangle !! k = Some row -> cols !! k = Some c ->
       (c < length row)%nat) /\
    (forall k c c' d, cols !! k = Some c -> cols !! S k = Some c' ->
       dp_table int_add triangle !! S k = Some d ->
       c' = if bool_decide (d !!! c <= d !!! S c) then c else S c) /\
    wrap_int (sum_list path) = total /\
    (no_overflow triangle -> sum_list path = total).
Proof.
  intros triangle.
  assert (Hne : triangle <> []) by done.
  assert (Hwf : well_formed_triangle triangle) by (simpl; repeat split).
  assert (Hint : int_entries triangle) by (unfold triangle, int_entries; int_table).
  split; [by repeat split|]. exact (reconstructed_path triangle Hne Hwf Hint).
Defined.

Lemma minimum_total_is_minimum_witness :
  let triangle := [[2]; [3; 4]; [6; 5; 7]; [4; 1; 8; 3]] in
  (triangle <> [] /\ well_formed_triangle triangle /\ int_entries triangle /\
   no_overflow triangle) /\
  exists total path,
    minimum_total triangle = Ret (total, path) /\
    total = cell (dp_table Z.add triangle) 0 0 /\
    (forall cols, is_path triangle cols -> total <= path_sum triangle cols) /\
    (exists cols, is_path triangle cols /\ path_sum triangle cols = total).
Proof.
  intros triangle.
  assert (Hne : triangle <> []) by done.
  assert (Hwf : well_formed_triangle triangle) by (simpl; repeat split).
  assert (Hint : int_entries triangle) by (unfold triangle, int_entries; int_table).
  assert (Hno : no_overflow triangle).
  { unfold no_overflow, int_entries. vm_compute dp_table. int_table. }
  split; [by repeat split|].
  exact (minimum_total_is_minimum triangle Hne Hwf Hint Hno).
Defined.

(** C2, where it fails: the sum -2147483648 + -1 does not fit an [int].
    The program returns the wrapped total 2147483647, although the path
    through columns 0 and 1 has the sum -2147483643 (which fits), and the
    top cell of the recurrence is -2147483649. *)
Lemma total_wraps_on_overflow :
  let triangle := [[-2147483648]; [-1; 5]] in
  well_formed_triangle triangle /\ int_entries triangle /\
  minimum_total triangle = Ret (2147483647, [-2147483648; -1]) /\
  cell (dp_table Z.add triangle) 0 0 = -2147483649 /\
  is_path triangle [0; 1]%nat /\
  path_sum triangle [0; 1]%nat = -2147483643 /\
  path_sum triangle [0; 1]%nat < 2147483647.
Proof.
  intros triangle. split; [|split; [|split; [|split; [|split; [|split]]]]].
  - simpl. repeat split.
  - unfold triangle, int_entries. int_table.
  - vm_compute. reflexivity.
  - vm_compute. reflexivity.
  - unfold is_path. simpl. auto.
  - vm_compute. reflexivity.
  - vm_compute. reflexivity.
Qed.

(** C3, where it fails: the sum -2147483648 + -3 does not fit an [int].
    The entries of the returned path add up to -2147483651, and the
    returned total is 2147483645. *)
Lemma path_sum_differs_on_overflow :
  let triangle := [[-2147483648]; [-1; -3]] in
  well_formed_triangle triangle /\ int_entries triangle /\
  minimum_total triangle = Ret (2147483645, [-2147483648; -3]) /\
  sum_list [-2147483648; -3] = -2147483651 /\
  sum_list [-2147483648; -3] <> 2147483645.
Proof.
  intros triangle. split; [|split; [|split; [|split]]].
  - simpl. repeat split.
  - unfold triangle, int_entries. int_table.
  - vm_compute. reflexivity.
  - vm_compute. reflexivity.
  - vm_compute. discriminate.
Qed.

(** The test cases of [TriangleTests], and the examples of the
    specification. *)
Example basic_triangle_1 :
  minimum_total [[2]; [3; 4]; [6; 5; 7]; [4; 1; 8; 3]] = Ret (11, [2; 3; 5; 1]).
Proof. vm_compute. reflexivity. Qed.

Example basic_triangle_2 :
  minimum_total [[-1]; [2; 3]; [1; -1; -3]; [4; 2; 1; 3]] = Ret (0, [-1; 3; -3; 1]).
Proof. vm_compute. reflexivity. Qed.

Example single_element : minimum_total [[5]] = Ret (5, [5]).
Proof. vm_compute. reflexivity. Qed.

Example two_rows : minimum_total [[1]; [2; 3]] = Ret (3, [1; 2]).
Proof. vm_compute. reflexivity. Qed.

Example all_same_values : minimum_total [[1]; [1; 1]; [1; 1; 1]] = Ret (3, [1; 1; 1]).
Proof. vm_compute. reflexivity. Qed.

Example negative_values :
  minimum_total [[-1]; [-2; -3]; [-4; -5; -6]] = Ret (-10, [-1; -3; -6]).
Proof. vm_compute. reflexivity. Qed.

Example five_rows :
  minimum_total [[1]; [2; 3]; [4; 5; 6]; [7; 8; 9; 10]; [11; 12; 13; 14; 15]]
  = Ret (25, [1; 2; 4; 7; 11]).
Proof. vm_compute. reflexivity. Qed.

(** A triangle whose second row is too short is read outside the table. *)
Example short_row_is_undefined : minimum_total [[1]; [2]] = Undefined.
Proof. vm_compute. reflexivity. Qed.

(** * Part IV: further properties of the programs *)

(** ** More on the solver: what any returned result looks like *)

Lemma validate_from_Ret i segs :
  validate_from i segs = Ret () -> Forall well_formed segs.
Proof.
  revert i. induction segs as [|seg segs IH]; intros i H; simpl in H; [constructor|].
  destruct (Z.gtb_spec seg.1 seg.2) as [|Hle]; [done|].
  constructor; [exact Hle|]. by apply (IH (S i)).
Qed.

(** A call that returns has passed validation and returns the sweep. *)
Lemma solver_Ret_inv segs count points :
  find_minimum_points_to_cover_all_segments segs = Ret (count, points) ->
  Forall well_formed segs /\
  points = sweep_points (-1) (std_sort segs) /\
  count = Z.of_nat (length points).
Proof.
  unfold find_minimum_points_to_cover_all_segments.
  destruct (decide (length segs = 0%nat)) as [E|_].
  - apply length_zero_iff_nil in E. subst. by intros [= <- <-].
  - destruct (validate_from 0 segs) as [[]| |] eqn:Hval; simpl; [|done|done].
    rewrite sweep_loop. simpl. intros [= <- <-].
    split; [by apply (validate_from_Ret 0)|done].
Qed.

Lemma sweep_points_are_ends c sorted p :
  p ∈ sweep_points c sorted -> exists seg, seg ∈ sorted /\ seg.2 = p.
Proof.
  revert c. induction sorted as [|seg rest IH]; intros c Hp; simpl in Hp.
  { by apply elem_of_nil in Hp. }
  destruct ((c =? -1) || (c <? seg.1)).
  - apply elem_of_cons in Hp as [->|Hp].
    + exists seg. split; [left|done].
    + destruct (IH _ Hp) as (seg' & Hin & Heq). exists seg'. split; [by right|done].
  - destruct (IH _ Hp) as (seg' & Hin & Heq). exists seg'. split; [by right|done].
Qed.

Lemma sweep_points_ascending c sorted :
  ends_ascending sorted -> StronglySorted Z.le (sweep_points c sorted).
Proof.
  intros Hs. revert c. induction Hs as [|seg rest Hrest IH Hle]; intros c; simpl.
  { constructor. }
  destruct ((c =? -1) || (c <? seg.1)); [|apply IH].
  constructor; [apply IH|].
  apply Forall_forall. intros p Hp.
  apply sweep_points_are_ends in Hp as (seg' & Hin & <-).
  rewrite Forall_forall in Hle. by apply Hle.
Qed.

Lemma sweep_points_length c sorted :
  (length (sweep_points c sorted) <= length sorted)%nat.
Proof.
  revert c. induction sorted as [|seg rest IH]; intros c; simpl; [lia|].
  destruct ((c =? -1) || (c <? seg.1)); simpl.
  - specialize (IH seg.2). lia.
  - specialize (IH c). lia.
Qed.

(** X1.  Every returned point is the right end of a segment of the input, and
    the points come in ascending order. *)
Theorem points_are_ascending_right_ends segs count points :
  find_minimum_points_to_cover_all_segments segs = Ret (count, points) ->
  (forall p, p ∈ points -> exists seg, seg ∈ segs /\ seg.2 = p) /\
  StronglySorted Z.le points.
Proof.
  intros Hret. apply solver_Ret_inv in Hret as (_ & -> & _). split.
  - intros p Hp. apply sweep_points_are_ends in Hp as (seg & Hin & Heq).
    exists seg. split; [|done]. by rewrite std_sort_perm in Hin.
  - apply sweep_points_ascending, std_sort_sorted.
Qed.

Lemma points_are_ascending_right_ends_witness :
  find_minimum_points_to_cover_all_segments [(4, 7); (1, 3); (2, 5); (6, 6)]
    = Ret (2, [3; 6]) /\
  (forall p, p ∈ [3; 6] ->
     exists seg, seg ∈ [(4, 7); (1, 3); (2, 5); (6, 6)] /\ seg.2 = p) /\
  StronglySorted Z.le [3; 6].
Proof.
  assert (H : find_minimum_points_to_cover_all_segments
                [(4, 7); (1, 3); (2, 5); (6, 6)] = Ret (2, [3; 6])).
  { vm_compute. reflexivity. }
  split; [exact H|]. exact (points_are_ascending_right_ends _ _ _ H).
Defined.

(** X2.  A non-empty input gets at least one point and at most one point per
    segment; the count is the number of points. *)
Theorem count_between_one_and_size segs count points :
  segs <> [] ->
  find_minimum_points_to_cover_all_segments segs = Ret (count, points) ->
  count = Z.of_nat (length points) /\ 1 <= count <= Z.of_nat (length segs).
Proof.
  intros Hne Hret. apply solver_Ret_inv in Hret as (_ & -> & ->).
  split; [done|].
  pose proof (sweep_points_length (-1) (std_sort segs)) as Hle.
  rewrite (Permutation_length (std_sort_perm segs)) in Hle.
  split; [|lia].
  destruct (std_sort segs) as [|seg rest] eqn:E.
  - apply (f_equal length) in E.
    rewrite (Permutation_length (std_sort_perm segs)) in E.
    apply length_zero_iff_nil in E. done.
  - simpl. lia.
Qed.

Lemma count_between_one_and_size_witness :
  [(4, 7); (1, 3); (2, 5); (6, 6)] <> [] /\
  find_minimum_points_to_cover_all_segments [(4, 7); (1, 3); (2, 5); (6, 6)]
    = Ret (2, [3; 6]) /\
  2 = Z.of_nat (length [3; 6]) /\
  1 <= 2 <= Z.of_nat (length [(4, 7); (1, 3); (2, 5); (6, 6)]).
Proof.
  assert (Hne : [(4, 7); (1, 3); (2, 5); (6, 6)] <> []) by done.
  assert (H : find_minimum_points_to_cover_all_segments
                [(4, 7); (1, 3); (2, 5); (6, 6)] = Ret (2, [3; 6])).
  { vm_compute. reflexivity. }
  split; [exact Hne|]. split; [exact H|].
  exact (count_between_one_and_size _ _ _ Hne H).
Defined.

(** ** More on the solver: input without the right end [-1] *)

(** X3.  Without the right end [-1] in the input, the returned points hit
    every segment and no set of points that does so is smaller: the
    count is the least number of points. *)
Theorem least_cover_without_sentinel segs count selected :
  Forall (fun seg : segment => seg.2 <> -1) segs ->
  find_minimum_points_to_cover_all_segments segs = Ret (count, selected) ->
  hits_all selected segs /\
  forall points : list Z, hits_all points segs ->
    count <= Z.of_nat (length points).
Proof.
  intros Hne Hret.
  destruct (solver_Ret_inv _ _ _ Hret) as (Hwf & Hsel & Hcount). split.
  - subst selected.
    apply coverage_for_any_sort_order;
      [done|apply std_sort_perm|apply std_sort_sorted].
  - intros points Hhit.
    pose proof (solver_minimum_without_sentinel _ _ _ points Hwf Hne Hret Hhit).
    lia.
Qed.

Lemma least_cover_without_sentinel_witness :
  Forall (fun seg : segment => seg.2 <> -1) [(4, 7); (1, 3); (2, 5); (6, 6)] /\
  find_minimum_points_to_cover_all_segments [(4, 7); (1, 3); (2, 5); (6, 6)]
    = Ret (2, [3; 6]) /\
  hits_all [3; 6] [(4, 7); (1, 3); (2, 5); (6, 6)] /\
  forall points : list Z, hits_all points [(4, 7); (1, 3); (2, 5); (6, 6)] ->
    2 <= Z.of_nat (length points).
Proof.
  assert (Hne : Forall (fun seg : segment => seg.2 <> -1)
                  [(4, 7); (1, 3); (2, 5); (6, 6)]).
  { repeat constructor; simpl; lia. }
  assert (Hret : find_minimum_points_to_cover_all_segments
                   [(4, 7); (1, 3); (2, 5); (6, 6)] = Ret (2, [3; 6])).
  { vm_compute. reflexivity. }
  split; [exact Hne|]. split; [exact Hret|].
  exact (least_cover_without_sentinel _ _ _ Hne Hret).
Defined.

Lemma specified_sweep_increasing c segs :
  Forall well_formed segs ->
  Forall (fun p => c < p) (specified_sweep (Some c) segs) /\
  StronglySorted Z.lt (specified_sweep (Some c) segs).
Proof.
  intros H. revert c.
  induction H as [|seg rest Hseg _ IH]; intros c; simpl.
  { split; constructor. }
  unfold well_formed in Hseg.
  destruct (Z.ltb_spec c seg.1) as [Hlt|Hge]; [|apply IH].
  destruct (IH seg.2) as [Hgt Hsorted]. split.
  - constructor; [lia|]. eapply Forall_impl; [exact Hgt|]. simpl. lia.
  - by constructor.
Qed.

(** X4.  Without the right end [-1] in the input, the returned points are
    strictly ascending, so no point is returned twice. *)
Theorem points_strictly_ascending_without_sentinel segs count points :
  Forall (fun seg : segment => seg.2 <> -1) segs ->
  find_minimum_points_to_cover_all_segments segs = Ret (count, points) ->
  StronglySorted Z.lt points /\ NoDup points.
Proof.
  intros Hne Hret. apply solver_Ret_inv in Hret as (Hwf & -> & _).
  rewrite sweep_points_specified by (by rewrite std_sort_perm).
  assert (Hsorted : StronglySorted Z.lt (specified_sweep None (std_sort segs))).
  { assert (Hwf' : Forall well_formed (std_sort segs)) by (by rewrite std_sort_perm).
    destruct Hwf' as [|seg rest Hseg Hrest]; simpl; [constructor|].
    destruct (specified_sweep_increasing seg.2 rest Hrest) as [Hgt Hs].
    by constructor. }
  split; [exact Hsorted|].
  induction Hsorted as [|p ps _ IH Hlt]; constructor; [|exact IH].
  intros Hin. rewrite Forall_forall in Hlt. specialize (Hlt p Hin). lia.
Qed.

Lemma points_strictly_ascending_without_sentinel_witness :
  Forall (fun seg : segment => seg.2 <> -1) [(4, 7); (1, 3); (2, 5); (6, 6)] /\
  find_minimum_points_to_cover_all_segments [(4, 7); (1, 3); (2, 5); (6, 6)]
    = Ret (2, [3; 6]) /\
  StronglySorted Z.lt [3; 6] /\ NoDup [3; 6].
Proof.
  assert (Hne : Forall (fun seg : segment => seg.2 <> -1)
                  [(4, 7); (1, 3); (2, 5); (6, 6)]).
  { repeat constructor; simpl; lia. }
  assert (Hret : find_minimum_points_to_cover_all_segments
                   [(4, 7); (1, 3); (2, 5); (6, 6)] = Ret (2, [3; 6])).
  { vm_compute. reflexivity. }
  split; [exact Hne|]. split; [exact Hret|].
  exact (points_strictly_ascending_without_sentinel _ _ _ Hne Hret).
Defined.

(** With the right end [-1] a point can be returned twice. *)
Example point_returned_twice :
  find_minimum_points_to_cover_all_segments [(-1, -1); (-2, -1)] = Ret (2, [-1; -1]).
Proof. vm_compute. reflexivity. Qed.

(** From the current point [c], the specified sweep over a vector sorted
    by right end selects the least right end among the segments that start
    right of [c], and goes on from there over the whole vector. *)
Lemma specified_sweep_next c sorted :
  ends_ascending sorted -> Forall well_formed sorted ->
  (Forall (fun seg : segment => ~ c < seg.1) sorted /\
   specified_sweep (Some c) sorted = []) \/
  (exists seg, seg ∈ sorted /\ c < seg.1 /\
     (forall seg', seg' ∈ sorted -> c < seg'.1 -> seg.2 <= seg'.2) /\
     specified_sweep (Some c) sorted
     = seg.2 :: specified_sweep (Some seg.2) sorted).
Proof.
  intros Hs. induction Hs as [|seg rest Hrest IH Hle]; intros Hwf.
  { left. split; [constructor|done]. }
  apply Forall_cons in Hwf as [Hseg Hwf]. unfold well_formed in Hseg. simpl.
  destruct (Z.ltb_spec c seg.1) as [Hlt|Hge].
  - right. exists seg. split; [left|]. split; [done|]. split.
    + intros seg' Hin _. apply elem_of_cons in Hin as [->|Hin]; [lia|].
      rewrite Forall_forall in Hle. by apply Hle.
    + by destruct (Z.ltb_spec seg.2 seg.1); [lia|].
  - destruct (IH Hwf) as [[Hnone Hnil]|(seg0 & Hin & Hc & Hmin & Hstep)].
    + left. split; [constructor; [lia|done]|done].
    + right. exists seg0. split; [by right|]. split; [done|]. split.
      * intros seg' Hin' Hc'. apply elem_of_cons in Hin' as [->|Hin']; [lia|].
        by apply Hmin.
      * rewrite Hstep.
        assert (seg0.1 <= seg0.2).
        { rewrite Forall_forall in Hwf. by apply Hwf. }
        by destruct (Z.ltb_spec seg0.2 seg.1); [lia|].
Qed.

(** So the sweep does not depend on the order of equal right ends. *)
Lemma specified_sweep_perm_from (n : nat) : forall (c : Z) (l1 l2 : list segment),
  (length (filter (fun seg : segment => (c < seg.1)%Z) l1) <= n)%nat ->
  l1 ≡ₚ l2 -> ends_ascending l1 -> ends_ascending l2 ->
  Forall well_formed l1 ->
  specified_sweep (Some c) l1 = specified_sweep (Some c) l2.
Proof.
  induction n as [|n IH]; intros c l1 l2 Hn Hperm Hs1 Hs2 Hwf1.
  - assert (Hwf2 : Forall well_formed l2) by (by rewrite <- Hperm).
    assert (Hnone : forall l, l ≡ₚ l1 -> forall seg, seg ∈ l -> ~ c < seg.1).
    { intros l Hl seg Hin Hc. rewrite Hl in Hin.
      assert (Hf : seg ∈ filter (fun seg : segment => c < seg.1) l1).
      { apply list_elem_of_filter. by split. }
      destruct (filter (fun seg : segment => c < seg.1) l1);
        [by apply elem_of_nil in Hf|simpl in Hn; lia]. }
    destruct (specified_sweep_next c l1 Hs1 Hwf1) as [[_ ->]|(seg & Hin & Hc & _)];
      [|by destruct (Hnone l1 (reflexivity _) seg Hin)].
    destruct (specified_sweep_next c l2 Hs2 Hwf2) as [[_ ->]|(seg & Hin & Hc & _)];
      [done|].
    by destruct (Hnone l2 (symmetry Hperm) seg Hin).
  - assert (Hwf2 : Forall well_formed l2) by (by rewrite <- Hperm).
    destruct (specified_sweep_next c l1 Hs1 Hwf1)
      as [[Hnone1 ->]|(seg1 & Hin1 & Hc1 & Hmin1 & ->)];
    destruct (specified_sweep_next c l2 Hs2 Hwf2)
      as [[Hnone2 ->]|(seg2 & Hin2 & Hc2 & Hmin2 & ->)].
    + done.
    + rewrite <- Hperm in Hin2. rewrite Forall_forall in Hnone1.
      by destruct (Hnone1 seg2 Hin2).
    + rewrite Hperm in Hin1. rewrite Forall_forall in Hnone2.
      by destruct (Hnone2 seg1 Hin1).
    + assert (Heq : seg1.2 = seg2.2).
      { apply Z.le_antisymm.
        - apply Hmin1; [by rewrite Hperm|done].
        - apply Hmin2; [by rewrite <- Hperm|done]. }
      rewrite <- Heq. f_equal. apply IH; try done.
      assert (Hseg1 : seg1.1 <= seg1.2).
      { rewrite Forall_forall in Hwf1. by apply Hwf1. }
      assert ((length (filter (fun seg : segment => (seg1.2 < seg.1)%Z) l1)
               < length (filter (fun seg : segment => (c < seg.1)%Z) l1))%nat); [|lia].
      apply filter_length_lt; [intros seg; lia|].
      apply Exists_exists. exists seg1. split; [done|]. lia.
Qed.

Lemma specified_sweep_perm l1 l2 :
  l1 ≡ₚ l2 -> ends_ascending l1 -> ends_ascending l2 -> Forall well_formed l1 ->
  specified_sweep None l1 = specified_sweep None l2.
Proof.
  intros Hperm Hs1 Hs2 Hwf1.
  assert (Hlow : forall l : list segment,
            exists c0, Forall (fun seg : segment => c0 < seg.1) l).
  { induction l as [|seg l [c0 IH]]; [exists 0; constructor|].
    exists (Z.min c0 (seg.1 - 1)). constructor; [lia|].
    eapply Forall_impl; [exact IH|]. simpl. lia. }
  assert (Hnone : forall c0 (l : list segment),
            Forall (fun seg : segment => c0 < seg.1) l ->
            specified_sweep None l = specified_sweep (Some c0) l).
  { intros c0 l Hl. destruct Hl as [|seg rest Hseg _]; simpl; [done|].
    by destruct (Z.ltb_spec c0 seg.1); [|lia]. }
  destruct (Hlow l1) as [c0 Hc0].
  rewrite (Hnone c0 l1 Hc0), (Hnone c0 l2) by (by rewrite <- Hperm).
  by apply (specified_sweep_perm_from (length l1)); [apply length_filter|..].
Qed.

(** X5.  Without the right end [-1] in the input, the order in which the
    segments are given does not change the result. *)
Theorem result_independent_of_input_order segs1 segs2 :
  segs1 ≡ₚ segs2 -> Forall well_formed segs1 ->
  Forall (fun seg : segment => seg.2 <> -1) segs1 ->
  find_minimum_points_to_cover_all_segments segs1
  = find_minimum_points_to_cover_all_segments segs2.
Proof.
  intros Hperm Hwf Hne.
  rewrite !solver_specified_without_sentinel; try done;
    try (by rewrite <- Hperm).
  unfold specified_cover.
  rewrite (specified_sweep_perm (std_sort segs1) (std_sort segs2)); [done|..].
  - by rewrite !std_sort_perm.
  - apply std_sort_sorted.
  - apply std_sort_sorted.
  - by rewrite std_sort_perm.
Qed.

Lemma result_independent_of_input_order_witness :
  [(4, 7); (1, 3); (2, 5); (6, 7)] ≡ₚ [(6, 7); (2, 5); (4, 7); (1, 3)] /\
  find_minimum_points_to_cover_all_segments [(4, 7); (1, 3); (2, 5); (6, 7)]
  = find_minimum_points_to_cover_all_segments [(6, 7); (2, 5); (4, 7); (1, 3)].
Proof.
  assert (Hperm : [(4, 7); (1, 3); (2, 5); (6, 7)]
                  ≡ₚ [(6, 7); (2, 5); (4, 7); (1, 3)]).
  { apply (Permutation_trans (l' := [(6, 7); (4, 7); (1, 3); (2, 5)])).
    - symmetry. apply (Permutation_cons_append [(4, 7); (1, 3); (2, 5)] (6, 7)).
    - apply perm_skip.
      symmetry. apply (Permutation_cons_append [(4, 7); (1, 3)] (2, 5)). }
  split; [exact Hperm|].
  apply (result_independent_of_input_order _ _ Hperm).
  - repeat constructor; unfold well_formed; simpl; lia.
  - repeat constructor; simpl; lia.
Defined.

(** With the right end [-1] the order of the input can show in the
    result. *)
Example input_order_shows_at_sentinel :
  find_minimum_points_to_cover_all_segments [(-7, -5); (-10, -1); (-3, -1)]
    = Ret (2, [-5; -1]) /\
  find_minimum_points_to_cover_all_segments [(-7, -5); (-3, -1); (-10, -1)]
    = Ret (3, [-5; -1; -1]).
Proof. split; vm_compute; reflexivity. Qed.

(** ** More on the reader: the whole outcome *)

Lemma mapM_cons_Some {A B} (f : A -> option B) x y l :
  f x = Some y -> mapM f (x :: l) = (fun k => y :: k) <$> mapM f l.
Proof. intros H. simpl. rewrite H. simpl. by destruct (mapM f l). Qed.

Lemma mapM_cons_None {A B} (f : A -> option B) x l :
  f x = None -> mapM f (x :: l) = None.
Proof. intros H. simpl. by rewrite H. Qed.

Lemma read_loop_outcome total lines st :
  match mapM segment_of_line
          (declared_lines (total - segments_read st) lines) with
  | None => read_loop total lines st = Throw (runtime_error "Invalid segment data")
  | Some segs =>
      exists st', read_loop total lines st = Ret st' /\
        segments_data st' = segments_data st ++ segs /\
        segments_read st' = segments_read st + Z.of_nat (length segs)
  end.
Proof.
  unfold declared_lines.
  revert st. induction lines as [|line rest IH]; intros st.
  { rewrite filter_nil, take_nil. simpl. exists st.
    rewrite app_nil_r. split; [done|]. split; [done|lia]. }
  destruct (Z.ltb_spec (segments_read st) total) as [Hlt|Hge].
  - simpl read_loop. destruct (Z.ltb_spec (segments_read st) total); [|lia].
    rewrite filter_cons. destruct (decide (line = "")) as [->|Hne].
    + destruct (decide ("" <> "")) as [Hbad|_]; [done|].
      apply (IH (ReaderState (segments_data st) (lines_read st + 1)
                   (segments_read st) (lines_skipped st + 1))).
    + destruct (decide (line <> "")) as [_|Hbad]; [|done].
      replace (Z.to_nat (total - segments_read st))
        with (S (Z.to_nat (total - (segments_read st + 1)))) by lia.
      simpl take.
      destruct (extract_two_ints line) as [[a b]|] eqn:Hparse.
      * rewrite (@mapM_cons_Some string segment segment_of_line line
                   (Z.min a b, Z.max a b))
          by (unfold segment_of_line; by rewrite Hparse).
        specialize (IH (ReaderState (segments_data st ++ [(Z.min a b, Z.max a b)])
                          (lines_read st + 1) (segments_read st + 1)
                          (lines_skipped st))).
        simpl in IH.
        destruct (mapM segment_of_line _) as [segs|]; simpl; [|done].
        destruct IH as (st' & Hrun & Hdata & Hread).
        exists st'. split; [done|]. rewrite Hdata, Hread, <- app_assoc. simpl.
        split; [done|lia].
      * rewrite mapM_cons_None by (unfold segment_of_line; by rewrite Hparse).
        done.
  - rewrite read_loop_done by lia.
    replace (Z.to_nat (total - segments_read st)) with 0%nat by lia.
    rewrite take_0. simpl. exists st. rewrite app_nil_r.
    split; [done|]. split; [done|lia].
Qed.

(** After a numeric header, the loop decides the result. *)
Lemma read_after_header
    (fs : file_system) (filename first_line : string) (lines : list string)
    (N : Z) (rest : string) :
  fs filename = Some (first_line :: lines) ->
  extract_int first_line = Some (N, rest) ->
  read_segments_from_file fs filename
  = match mapM segment_of_line (declared_lines N lines) with
    | None => Throw (runtime_error "Invalid segment data")
    | Some segs =>
        if Z.of_nat (length segs) <? N
        then Throw (runtime_error "Unexpected end of file")
        else Ret (ReadResult segs (size_differs (length segs) N))
    end.
Proof.
  intros Hfile Hhead. unfold read_segments_from_file. rewrite Hfile, Hhead.
  pose proof (read_loop_outcome N lines (ReaderState [] 0 0 0)) as H.
  simpl in H. rewrite Z.sub_0_r in H.
  destruct (mapM segment_of_line (declared_lines N lines)) as [segs|].
  - destruct H as (st' & -> & Hdata & Hread). simpl.
    rewrite Hread, Hdata. simpl. done.
  - by rewrite H.
Qed.

(** X6.  What a call on a file with a numeric header gives, in all cases: a
    data line among the declared ones that is no segment is an "Invalid
    segment data" error; else too few data lines are an "Unexpected end of
    file" error; else the call returns the declared lines as segments,
    each with its ends in order. *)
Theorem reader_outcome
    (fs : file_system) (filename first_line : string) (lines : list string)
    (N : Z) (rest : string) :
  fs filename = Some (first_line :: lines) ->
  extract_int first_line = Some (N, rest) ->
  read_segments_from_file fs filename
  = match mapM segment_of_line (declared_lines N lines) with
    | None => Throw (runtime_error "Invalid segment data")
    | Some segs =>
        if Z.of_nat (length segs) <? N
        then Throw (runtime_error "Unexpected end of file")
        else Ret (ReadResult segs (size_differs (length segs) N))
    end.
Proof. apply read_after_header. Qed.

Lemma reader_outcome_witness :
  let fs : file_system := fun _ => Some ["2"; "1 2"; ""; "9 4"; "junk"] in
  read_segments_from_file fs "segments.txt"
  = match mapM segment_of_line (declared_lines 2 ["1 2"; ""; "9 4"; "junk"]) with
    | None => Throw (runtime_error "Invalid segment data")
    | Some segs =>
        if Z.of_nat (length segs) <? 2
        then Throw (runtime_error "Unexpected end of file")
        else Ret (ReadResult segs (size_differs (length segs) 2))
    end.
Proof.
  intros fs.
  apply (reader_outcome fs "segments.txt" "2" ["1 2"; ""; "9 4"; "junk"] 2 "").
  - reflexivity.
  - reflexivity.
Defined.

Lemma segment_of_line_well_formed line seg :
  segment_of_line line = Some seg -> well_formed seg.
Proof.
  unfold segment_of_line. destruct (extract_two_ints line) as [[a b]|]; simpl; [|done].
  intros [= <-]. unfold well_formed. simpl. lia.
Qed.

Lemma mapM_segments_well_formed lines segs :
  mapM segment_of_line lines = Some segs -> Forall well_formed segs.
Proof.
  intros H. apply mapM_Some_1 in H.
  induction H as [|line seg lines segs Hseg _ IH]; constructor; [|done].
  by apply (segment_of_line_well_formed line).
Qed.

(** Whatever the file, every segment the reader returns has
    start <= end. *)
Lemma reader_returns_well_formed fs filename result :
  read_segments_from_file fs filename = Ret result ->
  Forall well_formed (segments_returned result).
Proof.
  intros Hret.
  destruct (fs filename) as [[|first_line lines]|] eqn:Hfile;
    try (unfold read_segments_from_file in Hret; by rewrite Hfile in Hret).
  destruct (extract_int first_line) as [[N rest]|] eqn:Hhead;
    [|unfold read_segments_from_file in Hret; by rewrite Hfile, Hhead in Hret].
  rewrite (read_after_header _ _ _ _ _ _ Hfile Hhead) in Hret.
  destruct (mapM segment_of_line (declared_lines N lines)) as [segs|] eqn:Hsegs;
    [|done].
  destruct (Z.of_nat (length segs) <? N); [done|].
  inversion Hret; subst. simpl. by apply (mapM_segments_well_formed _ _ Hsegs).
Qed.

(** X7.  Reader and solver fit: the segments a call of the reader returns have
    their ends in order, so the solver does not reject them; it returns a
    cover of them. *)
Theorem solver_accepts_what_reader_returns fs filename result :
  read_segments_from_file fs filename = Ret result ->
  Forall well_formed (segments_returned result) /\
  exists count points,
    find_minimum_points_to_cover_all_segments (segments_returned result)
      = Ret (count, points) /\
    hits_all points (segments_returned result).
Proof.
  intros Hret. pose proof (reader_returns_well_formed _ _ _ Hret) as Hwf.
  split; [done|]. eexists _, _. split; [by apply solver_returns|].
  by apply coverage_for_any_sort_order; [|apply std_sort_perm|apply std_sort_sorted].
Qed.

Lemma solver_accepts_what_reader_returns_witness :
  let fs : file_system := fun _ => Some ["2"; "5 2"; "9 4"] in
  let result := ReadResult [(2, 5); (4, 9)] false in
  read_segments_from_file fs "segments.txt" = Ret result /\
  Forall well_formed (segments_returned result) /\
  exists count points,
    find_minimum_points_to_cover_all_segments (segments_returned result)
      = Ret (count, points) /\
    hits_all points (segments_returned result).
Proof.
  intros fs result.
  assert (H : read_segments_from_file fs "segments.txt" = Ret result).
  { vm_compute. reflexivity. }
  split; [exact H|]. exact (solver_accepts_what_reader_returns fs _ result H).
Defined.

(** ** The pipeline: reader, then solver, under one handler *)



(** X9.  When [execute] returns a count other than -1, the file was read, and
    the points returned cover every segment read; the count is the number
    of points and lies between 0 and the number of segments. *)
Theorem execute_returns_cover (fs : file_system) (count : Z) (points : list Z) :
  execute fs = Ret (count, points) -> count <> -1 ->
  exists result,
    read_segments_from_file fs input_filename = Ret result /\
    hits_all points (segments_returned result) /\
    count = Z.of_nat (length points) /\
    0 <= count <= Z.of_nat (length (segments_returned result)).
Proof.
  unfold execute. intros Hrun Hcount.
  destruct (read_segments_from_file fs input_filename) as [r|e|] eqn:Hread;
    simpl in Hrun; [| |done].
  - pose proof (reader_returns_well_formed _ _ _ Hread) as Hwf.
    pose proof (solver_returns _ Hwf) as Hsolve.
    pose proof (coverage_for_any_sort_order _ _ Hwf
                  (std_sort_perm _) (std_sort_sorted _)) as Hhit.
    rewrite Hsolve in Hrun. injection Hrun as <- <-.
    exists r. split; [done|]. split; [done|].
    split; [done|].
    pose proof (sweep_points_length (-1) (std_sort (segments_returned r))) as Hle.
    rewrite (Permutation_length (std_sort_perm _)) in Hle. lia.
  - injection Hrun as <- <-. done.
Qed.

Lemma execute_returns_cover_witness :
  let fs : file_system := fun _ => Some ["3"; "5 2"; ""; "9 4"; "1 3"] in
  execute fs = Ret (2, [3; 9]) /\
  exists result,
    read_segments_from_file fs input_filename = Ret result /\
    hits_all [3; 9] (segments_returned result) /\
    2 = Z.of_nat (length [3; 9]) /\
    0 <= 2 <= Z.of_nat (length (segments_returned result)).
Proof.
  intros fs.
  assert (H : execute fs = Ret (2, [3; 9])) by (vm_compute; reflexivity).
  split; [exact H|]. apply (execute_returns_cover fs 2 [3; 9] H). lia.
Defined.

(** A missing input file, for one, gives the failure pair. *)
Example execute_without_file : execute (fun _ => None) = Ret (-1, []).
Proof. reflexivity. Qed.

(** ** More on [minimum_total]: entries that cannot overflow *)

(** A cell of the recurrence over the integers is a sum of at most one
    entry per row. *)
Lemma dp_table_within B rows : forall b,
  shape_from b rows -> 0 <= B -> entries_within B rows ->
  entries_within (Z.of_nat (length rows) * B) (dp_table Z.add rows).
Proof.
  unfold entries_within.
  induction rows as [|row rest IH]; intros b Hshape HB H.
  { constructor. }
  destruct Hshape as [Hlen Hshape]. apply Forall_cons in H as [Hrow Hrest].
  specialize (IH (S b) Hshape HB Hrest).
  destruct (dp_table_cons Z.add row rest) as (d & -> & Hlast & Hstep).
  assert (Hgrow : forall z,
            - (Z.of_nat (length rest) * B) <= z <= Z.of_nat (length rest) * B ->
            - (Z.of_nat (length (row :: rest)) * B) <= z
            <= Z.of_nat (length (row :: rest)) * B).
  { intros z Hz. simpl length. nia. }
  constructor.
  - destruct rest as [|row' rest'].
    + rewrite (Hlast eq_refl). eapply Forall_impl; [exact Hrow|].
      simpl. intros z Hz. lia.
    + destruct (dp_table_lookup_is_Some Z.add (row' :: rest') 0 row' eq_refl)
        as [below Hbelow].
      pose proof (dp_table_row_length Z.add (row' :: rest') 0 row' below
                    eq_refl Hbelow) as Hlenb.
      destruct Hshape as [Hlen' _].
      destruct (dp_table Z.add (row' :: rest')) as [|below' t] eqn:E; [done|].
      injection Hbelow as ->.
      rewrite (Hstep below t eq_refl). apply Forall_cons in IH as [Hcells _].
      unfold dp_row. apply Forall_lookup_2. intros j z Hz.
      rewrite list_lookup_imap in Hz.
      destruct (row !! j) as [x|] eqn:Ex; simpl in Hz; [|done].
      injection Hz as <-.
      pose proof (lookup_lt_Some _ _ _ Ex) as Hj.
      assert (Hx : - B <= x <= B).
      { rewrite Forall_lookup in Hrow. by apply (Hrow j). }
      destruct (lookup_lt_is_Some_2 below j ltac:(lia)) as [a Ha].
      destruct (lookup_lt_is_Some_2 below (S j) ltac:(lia)) as [c Hc].
      rewrite (list_lookup_total_correct _ _ _ Ha),
              (list_lookup_total_correct _ _ _ Hc).
      rewrite Forall_lookup in Hcells.
      pose proof (Hcells j a Ha) as Ha'. pose proof (Hcells (S j) c Hc) as Hc'.
      simpl in Ha', Hc'. simpl length in *. nia.
  - eapply Forall_impl; [exact IH|]. intros d' Hd'.
    eapply Forall_impl; [exact Hd'|]. exact Hgrow.
Qed.

(** Without overflow, the returned total is the sum of the returned path
    and the least sum of a path. *)
Lemma attained_sum_is_least (triangle : table) :
  triangle <> [] -> well_formed_triangle triangle -> int_entries triangle ->
  no_overflow triangle ->
  exists cols,
    is_path triangle cols /\
    minimum_total triangle
    = Ret (path_sum triangle cols, entries_at triangle cols) /\
    path_sum triangle cols = cell (dp_table Z.add triangle) 0 0 /\
    forall cols', is_path triangle cols' ->
      path_sum triangle cols <= path_sum triangle cols'.
Proof.
  intros Hne Hwf Hint Hno.
  destruct (walk_attains triangle Hne Hwf Hint Hno) as (cols & Hpath & Hret).
  assert (Htotal : path_sum triangle cols = cell (dp_table Z.add triangle) 0 0).
  { rewrite minimum_total_returns in Hret by done.
    injection Hret as Htop _. by rewrite <- Htop, (dp_table_no_overflow _ Hno). }
  exists cols. split; [done|]. split; [done|]. split; [done|].
  intros cols' (Hlen & Hhead & Hfollows). rewrite Htotal.
  destruct triangle as [|row0 rest]; [done|].
  destruct cols' as [|c0 cols']; [done|]. simpl in Hhead, Hfollows, Hlen.
  inversion Hhead; subst c0.
  destruct (dp_table_cons Z.add row0 rest) as (d0 & Heq & _).
  rewrite path_sum_cons. unfold cell. rewrite Heq. simpl.
  apply (dp_lower_bound rest 1 0 row0 d0 (dp_table Z.add rest));
    [done|lia|done|done|lia].
Qed.

(** Entries of absolute value at most [B], and [n * B] for the [n] rows
    no larger than the largest [int]: nothing overflows. *)
Lemma within_no_overflow (B : Z) (triangle : table) :
  triangle <> [] -> well_formed_triangle triangle ->
  0 <= B -> entries_within B triangle ->
  Z.of_nat (length triangle) * B <= 2147483647 ->
  int_entries triangle /\ no_overflow triangle.
Proof.
  intros Hne Hwf HB Hin Hfit.
  assert (Hlen : 1 <= Z.of_nat (length triangle)).
  { destruct triangle; [done|]. simpl length. lia. }
  pose proof (dp_table_within B triangle 1 Hwf HB Hin) as Hdp.
  split.
  - unfold int_entries, entries_within in *. eapply Forall_impl; [exact Hin|].
    intros row Hrow. eapply Forall_impl; [exact Hrow|].
    unfold is_int, INT_MIN, INT_MAX. simpl. intros z Hz. nia.
  - unfold no_overflow, int_entries, entries_within in *.
    eapply Forall_impl; [exact Hdp|].
    intros row Hrow. eapply Forall_impl; [exact Hrow|].
    unfold is_int, INT_MIN, INT_MAX. simpl. intros z Hz. lia.
Qed.

(** X10.  Entries of absolute value at most [B] in a well-formed triangle of
    [n] rows, with [n * B] no larger than the largest [int]:
    [minimum_total] returns the least path sum with a path that has it,
    and the total lies between [-n*B] and [n*B]. *)
Theorem bounded_entries_give_least_sum (B : Z) (triangle : table) :
  triangle <> [] -> well_formed_triangle triangle ->
  0 <= B -> entries_within B triangle ->
  Z.of_nat (length triangle) * B <= 2147483647 ->
  exists cols,
    is_path triangle cols /\
    minimum_total triangle
    = Ret (path_sum triangle cols, entries_at triangle cols) /\
    (forall cols', is_path triangle cols' ->
       path_sum triangle cols <= path_sum triangle cols') /\
    - (Z.of_nat (length triangle) * B) <= path_sum triangle cols
    <= Z.of_nat (length triangle) * B.
Proof.
  intros Hne Hwf HB Hin Hfit.
  destruct (within_no_overflow B triangle Hne Hwf HB Hin Hfit) as [Hint Hno].
  pose proof (dp_table_within B triangle 1 Hwf HB Hin) as Hdp.
  destruct (attained_sum_is_least triangle Hne Hwf Hint Hno)
    as (cols & Hpath & Hret & Htop & Hleast).
  exists cols. split; [done|]. split; [done|]. split; [done|].
  rewrite Htop. unfold cell.
  unfold entries_within in Hdp.
  destruct (dp_table Z.add triangle) as [|d0 drest] eqn:E.
  { pose proof (dp_table_length Z.add triangle) as HlenD. rewrite E in HlenD.
    destruct triangle; [done|discriminate]. }
  apply Forall_cons in Hdp as [Hd0 _].
  destruct triangle as [|row0 rest]; [done|].
  destruct (dp_table_lookup_is_Some Z.add (row0 :: rest) 0 row0 eq_refl)
    as [d Hd].
  pose proof (dp_table_row_length Z.add (row0 :: rest) 0 row0 d eq_refl Hd)
    as Hlend.
  rewrite E in Hd. injection Hd as ->. destruct Hwf as [Hrow0 _].
  destruct (lookup_lt_is_Some_2 d 0 ltac:(lia)) as [z Hz].
  change ((d :: drest) !!! 0%nat) with d.
  rewrite (list_lookup_total_correct _ _ _ Hz).
  rewrite Forall_lookup in Hd0. by apply (Hd0 0%nat).
Qed.

Lemma bounded_entries_give_least_sum_witness :
  let triangle := [[-1]; [2; 3]; [1; -1; -3]; [4; 2; 1; 3]] in
  (triangle <> [] /\ well_formed_triangle triangle /\ 0 <= 4 /\
   entries_within 4 triangle /\ Z.of_nat (length triangle) * 4 <= 2147483647) /\
  exists cols,
    is_path triangle cols /\
    minimum_total triangle
    = Ret (path_sum triangle cols, entries_at triangle cols) /\
    (forall cols', is_path triangle cols' ->
       path_sum triangle cols <= path_sum triangle cols') /\
    - (Z.of_nat (length triangle) * 4) <= path_sum triangle cols
    <= Z.of_nat (length triangle) * 4.
Proof.
  intros triangle.
  assert (Hne : triangle <> []) by done.
  assert (Hwf : well_formed_triangle triangle) by (simpl; repeat split).
  assert (HB : 0 <= 4) by lia.
  assert (Hin : entries_within 4 triangle).
  { unfold triangle, entries_within.
    repeat (first [apply Forall_nil | apply Forall_cons; split]); lia. }
  assert (Hfit : Z.of_nat (length triangle) * 4 <= 2147483647) by (simpl; lia).
  split; [by repeat split|].
  exact (bounded_entries_give_least_sum 4 triangle Hne Hwf HB Hin Hfit).
Defined.

(** ** More on [minimum_total]: the shape of every result *)

Lemma push_back_Ret alloc_ok c path v st :
  push_back alloc_ok c path v = Ret st -> st = (c, path ++ [v]).
Proof.
  unfold push_back, allocate. destruct (alloc_ok _); simpl; [|done].
  by intros [= <-].
Qed.

(** An iteration of the reconstruction loop that returns has appended one
    entry. *)
Lemma reconstruct_step_length alloc_ok (triangle dp : table) i st st' :
  reconstruct_step alloc_ok triangle dp i st = Ret st' ->
  length st'.2 = S (length st.2).
Proof.
  destruct st as [c path]. unfold reconstruct_step. intros H.
  apply bind_Ret_inv in H as (d & _ & H).
  apply bind_Ret_inv in H as (t & _ & H).
  apply bind_Ret_inv in H as (here & _ & H).
  destruct (here =? int_sub d t);
    apply bind_Ret_inv in H as (v & _ & H);
    apply push_back_Ret in H as ->; simpl; rewrite length_app; simpl; lia.
Qed.

Lemma reconstruct_loop_length alloc_ok (triangle dp : table) rows st st' :
  for_each rows (reconstruct_step alloc_ok triangle dp) st = Ret st' ->
  length st'.2 = (length st.2 + length rows)%nat.
Proof.
  revert st. induction rows as [|i rows IH]; intros st H; simpl in H.
  - injection H as <-. simpl. lia.
  - apply bind_Ret_inv in H as (st1 & Hstep & H).
    apply IH in H. apply reconstruct_step_length in Hstep. simpl. lia.
Qed.

(** What the [try] block can return: the degenerate result on a
    degenerate triangle, else a path with one entry for each row. *)
Lemma try_block_returns alloc_ok (triangle : table) total path :
  minimum_total_try alloc_ok triangle = Ret (total, path) ->
  (total = 0 /\ path = [] /\ (triangle = [] \/ head triangle = Some [])) \/
  (path <> [] /\ length path = length triangle).
Proof.
  destruct triangle as [|[|x row0] rest].
  - intros [= <- <-]. left. auto.
  - intros [= <- <-]. left. auto.
  - unfold minimum_total_try. lazy beta iota zeta. intros H. right.
    apply bind_Ret_inv in H as ([] & _ & H).
    apply bind_Ret_inv in H as (dp0 & _ & H).
    apply bind_Ret_inv in H as (dp1 & _ & H).
    apply bind_Ret_inv in H as (dp2 & _ & H).
    apply bind_Ret_inv in H as (v & _ & H).
    apply bind_Ret_inv in H as (st0 & Hpush & H).
    apply bind_Ret_inv in H as (st1 & Hloop & H).
    apply bind_Ret_inv in H as (min_sum & _ & H).
    apply bind_Ret_inv in H as ([] & _ & H).
    injection H as <- <-.
    apply push_back_Ret in Hpush as ->.
    apply reconstruct_loop_length in Hloop.
    rewrite length_seq in Hloop. simpl in Hloop.
    assert (Hlen : length st1.2 = S (length rest)) by lia.
    split; [|done]. intros Hnil. by rewrite Hnil in Hlen.
Qed.

(** X11.  The sentinel is returned only on a fault: the converse of the
    handler's rule.  No triangle has it for its result. *)
Theorem sentinel_only_on_fault (alloc_ok : nat -> bool) (triangle : table) :
  minimum_total_under alloc_ok triangle = Ret (2147483647, []) ->
  exists e, minimum_total_try alloc_ok triangle = Throw e.
Proof.
  unfold minimum_total_under.
  destruct (minimum_total_try alloc_ok triangle) as [[total path]|e|] eqn:Htry;
    [|by exists e|done].
  intros [= -> ->].
  apply try_block_returns in Htry as [(Hzero & _)|(Hne & _)]; done.
Qed.

Lemma sentinel_only_on_fault_witness :
  let alloc_ok := fun k : nat => bool_decide (k <> 3)%nat in
  minimum_total_under alloc_ok [[1]; [1; 1]; [1; 1; 1]] = Ret (2147483647, []) /\
  exists e, minimum_total_try alloc_ok [[1]; [1; 1]; [1; 1; 1]] = Throw e.
Proof.
  intros alloc_ok.
  assert (H : minimum_total_under alloc_ok [[1]; [1; 1]; [1; 1; 1]]
              = Ret (2147483647, [])) by (vm_compute; reflexivity).
  split; [exact H|]. exact (sentinel_only_on_fault alloc_ok _ H).
Defined.

(** X12.  Whatever the triangle and the allocator, a returned path is empty
    only with total 0 (degenerate triangle) or with the sentinel total
    (fault), and a path that is not empty has one entry for each row. *)
Theorem returned_path_shape (alloc_ok : nat -> bool) (triangle : table)
    (total : Z) (path : list Z) :
  minimum_total_under alloc_ok triangle = Ret (total, path) ->
  (path = [] /\ (total = 0 \/ total = 2147483647)) \/
  (path <> [] /\ length path = length triangle).
Proof.
  unfold minimum_total_under.
  destruct (minimum_total_try alloc_ok triangle) as [[total' path']|e|] eqn:Htry;
    [| |done].
  - intros [= <- <-].
    apply try_block_returns in Htry as [(-> & -> & _)|Hshape]; [left|right]; auto.
  - unfold minimum_total_catch, allocate.
    destruct (alloc_ok _); simpl; [|done]. intros [= <- <-]. left. auto.
Qed.

Lemma returned_path_shape_witness :
  minimum_total_under (fun _ => true) [[2]; [3; 4]; [6; 5; 7]; [4; 1; 8; 3]]
    = Ret (11, [2; 3; 5; 1]) /\
  (([2; 3; 5; 1] = [] /\ (11 = 0 \/ 11 = 2147483647)) \/
   ([2; 3; 5; 1] <> [] /\
    length [2; 3; 5; 1] = length [[2]; [3; 4]; [6; 5; 7]; [4; 1; 8; 3]])).
Proof.
  assert (H : minimum_total_under (fun _ => true)
                [[2]; [3; 4]; [6; 5; 7]; [4; 1; 8; 3]] = Ret (11, [2; 3; 5; 1])).
  { vm_compute. reflexivity. }
  split; [exact H|]. exact (returned_path_shape _ _ _ _ H).
Defined.

(** ** More on [minimum_total]: a row that is too short *)

Lemma for_each_app {X S} (xs ys : list X) (body : X -> S -> outcome S) (s : S) :
  for_each (xs ++ ys) body s = for_each xs body s ≫= for_each ys body.
Proof.
  revert s. induction xs as [|x xs IH]; intros s; simpl; [done|].
  destruct (body x s) as [s'| |]; simpl; [apply IH|done|done].
Qed.

Lemma bind_never_throws {A B} (m : outcome A) (f : A -> outcome B) :
  never_throws m -> (forall a, never_throws (f a)) -> never_throws (m ≫= f).
Proof.
  intros Hm Hf e. destruct m as [a|e'|]; simpl; [apply Hf|by destruct (Hm e')|done].
Qed.

Lemma for_each_never_throws {X S} (xs : list X) (body : X -> S -> outcome S) s :
  (forall x s, never_throws (body x s)) -> never_throws (for_each xs body s).
Proof.
  intros Hbody. revert s. induction xs as [|x xs IH]; intros s; simpl; [done|].
  by apply bind_never_throws.
Qed.

Lemma for_each_Ret_preserves {X S} (Inv : S -> Prop) (xs : list X)
    (body : X -> S -> outcome S) s s' :
  (forall x s s', Inv s -> body x s = Ret s' -> Inv s') ->
  Inv s -> for_each xs body s = Ret s' -> Inv s'.
Proof.
  intros Hbody. revert s. induction xs as [|x xs IH]; intros s Hs H; simpl in H.
  - by injection H as <-.
  - apply bind_Ret_inv in H as (s1 & Hstep & H). eauto.
Qed.

Lemma at2_never_throws (t : table) i j : never_throws (at2 t i j).
Proof. intros e. unfold at2. by repeat case_match. Qed.

Lemma set2_never_throws (t : table) i j v : never_throws (set2 t i j v).
Proof. intros e. unfold set2. by repeat case_match. Qed.

Lemma set2_Ret_shape (dp triangle : table) i j v dp' :
  same_shape dp triangle -> set2 dp i j v = Ret dp' -> same_shape dp' triangle.
Proof.
  intros Hshape. unfold set2. destruct (dp !! i) as [row|] eqn:Hrow; [|done].
  destruct (decide (j < length row)%nat); [|done]. intros [= <-].
  eapply same_shape_insert; [done|done|by rewrite length_insert].
Qed.

(** The body of the inner loop of the DP, and what it keeps. *)
Lemma fill_cell_never_throws (triangle : table) i j dp :
  never_throws
    (t ← at2 triangle i j; below ← at2 dp (i + 1) j;
     below_right ← at2 dp (i + 1) (j + 1);
     set2 dp i j (int_add t (Z.min below below_right))).
Proof.
  repeat (apply bind_never_throws; [apply at2_never_throws|intros ?]).
  apply set2_never_throws.
Qed.

Lemma fill_cell_Ret_shape (triangle : table) i j dp dp' :
  same_shape dp triangle ->
  (t ← at2 triangle i j; below ← at2 dp (i + 1) j;
   below_right ← at2 dp (i + 1) (j + 1);
   set2 dp i j (int_add t (Z.min below below_right))) = Ret dp' ->
  same_shape dp' triangle.
Proof.
  intros Hs H.
  apply bind_Ret_inv in H as (t & _ & H).
  apply bind_Ret_inv in H as (a & _ & H).
  apply bind_Ret_inv in H as (b & _ & H).
  by apply (set2_Ret_shape dp triangle i j _ dp' Hs H).
Qed.

Lemma fill_row_never_throws (triangle : table) i dp :
  never_throws (fill_row triangle i dp).
Proof.
  unfold fill_row, size_at. destruct (triangle !! i); simpl; [|done].
  apply for_each_never_throws. intros j dp'. apply fill_cell_never_throws.
Qed.

Lemma fill_row_Ret_shape (triangle : table) i dp dp' :
  same_shape dp triangle -> fill_row triangle i dp = Ret dp' ->
  same_shape dp' triangle.
Proof.
  intros Hshape. unfold fill_row, size_at.
  destruct (triangle !! i); simpl; [|done].
  intros H.
  apply (for_each_Ret_preserves (fun s => same_shape s triangle) _ _ _ _
           (fun j s s' => fill_cell_Ret_shape triangle i j s s') Hshape H).
Qed.

(** Row [i] is filled from row [i+1], up to the column after its last:
    a row [i+1] that is not longer than row [i] is read out of range. *)
Lemma fill_row_short (triangle dp : table) i row next :
  same_shape dp triangle ->
  triangle !! i = Some row -> triangle !! S i = Some next ->
  row <> [] -> (length next <= length row)%nat ->
  fill_row triangle i dp = Undefined.
Proof.
  intros Hshape Hrow Hnext Hne Hshort.
  unfold fill_row, size_at. rewrite Hrow. simpl.
  set (j0 := (length next - 1)%nat).
  assert (Hj0 : (j0 < length row)%nat).
  { destruct row; [done|]. unfold j0. simpl in *. lia. }
  replace (length row) with (j0 + S (length row - S j0))%nat by lia.
  rewrite seq_app, for_each_app. simpl.
  match goal with |- ?m ≫= _ = _ => destruct m as [dp'|e|] eqn:Hpre end;
    simpl; [| |done].
  - assert (Hshape' : same_shape dp' triangle).
    { apply (for_each_Ret_preserves (fun s => same_shape s triangle) _ _ _ _
               (fun j s s' => fill_cell_Ret_shape triangle i j s s') Hshape Hpre). }
    destruct (same_shape_lookup _ _ _ _ Hshape' Hnext) as (d & Hd & Hlend).
    destruct (lookup_lt_is_Some_2 row j0 Hj0) as [t Ht].
    rewrite (at2_lookup _ _ _ _ _ Hrow Ht). simpl.
    assert (Hright : at2 dp' (i + 1) (j0 + 1) = Undefined).
    { unfold at2. rewrite Nat.add_1_r, Hd.
      rewrite lookup_ge_None_2; [done|]. unfold j0. lia. }
    destruct (at2 dp' (i + 1) j0) as [a|e|] eqn:Ha; simpl;
      [|by destruct (at2_never_throws _ _ _ _ Ha)|done].
    by rewrite Hright.
  - exfalso. revert Hpre. apply for_each_never_throws.
    intros j s. apply fill_cell_never_throws.
Qed.

Lemma fill_rows_short (triangle dp : table) i row next :
  same_shape dp triangle ->
  triangle !! i = Some row -> triangle !! S i = Some next ->
  row <> [] -> (length next <= length row)%nat ->
  fill_rows triangle (length triangle) dp = Undefined.
Proof.
  intros Hshape Hrow Hnext Hne Hshort.
  pose proof (lookup_lt_Some _ _ _ Hnext) as Hi.
  unfold fill_rows.
  replace (length triangle - 1)%nat
    with (i + S (length triangle - 1 - S i))%nat by lia.
  rewrite seq_app. simpl. rewrite rev_app_distr. simpl.
  rewrite <- app_assoc, for_each_app. simpl.
  match goal with |- ?m ≫= _ = _ => destruct m as [dp'|e|] eqn:Hpre end;
    simpl; [| |done].
  - assert (Hshape' : same_shape dp' triangle).
    { apply (for_each_Ret_preserves (fun s => same_shape s triangle) _ _ _ _
               (fun k s s' => fill_row_Ret_shape triangle k s s') Hshape Hpre). }
    by rewrite (fill_row_short triangle dp' i row next).
  - exfalso. revert Hpre. apply for_each_never_throws.
    intros k s. apply fill_row_never_throws.
Qed.

(** X13.  [minimum_total] does not check the shape of the triangle: when some
    row that is not empty is followed by a row that is not longer, the DP
    reads the table out of range, which is undefined behaviour. *)
Theorem short_row_is_read_out_of_range (triangle : table) (i : nat)
    (row next : list Z) :
  head triangle <> Some [] ->
  triangle !! i = Some row -> triangle !! S i = Some next ->
  row <> [] -> (length next <= length row)%nat ->
  minimum_total triangle = Undefined.
Proof.
  intros Hhead Hrow Hnext Hne Hshort.
  destruct (resize_rows_shape triangle) as (dp0 & Hrun0 & Hshape0).
  assert (Hn : (length triangle - 1 < length triangle)%nat).
  { apply lookup_lt_Some in Hrow. lia. }
  destruct (lookup_lt_is_Some_2 triangle _ Hn) as [last Hlast].
  destruct (copy_last_row_spec _ _ _ Hshape0 Hlast) as (dp1 & Hrun1 & Hshape1 & _).
  pose proof (fill_rows_short triangle dp1 i row next Hshape1 Hrow Hnext Hne Hshort)
    as Hrun2.
  destruct triangle as [|[|x row0] rest]; [done|done|].
  unfold minimum_total, minimum_total_under, minimum_total_try, allocate.
  lazy beta iota zeta.
  set (triangle := (x :: row0) :: rest) in *.
  by rewrite !bind_Ret, Hrun0, !bind_Ret, Hrun1, !bind_Ret, Hrun2.
Qed.

Lemma short_row_is_read_out_of_range_witness :
  let triangle := [[1]; [2; 3]; [4; 5]] in
  (head triangle <> Some [] /\
   triangle !! 1%nat = Some [2; 3] /\ triangle !! 2%nat = Some [4; 5] /\
   [2; 3] <> [] /\ (length [4; 5]%Z <= length [2; 3]%Z)%nat) /\
  minimum_total triangle = Undefined.
Proof.
  intros triangle.
  assert (H1 : head triangle <> Some []) by done.
  assert (H2 : triangle !! 1%nat = Some [2; 3]) by done.
  assert (H3 : triangle !! 2%nat = Some [4; 5]) by done.
  assert (H4 : [2; 3] <> ([] : list Z)) by done.
  assert (H5 : (length [4; 5]%Z <= length [2; 3]%Z)%nat) by (simpl; lia).
  split; [by repeat split|].
  exact (short_row_is_read_out_of_range triangle 1 [2; 3] [4; 5] H1 H2 H3 H4 H5).
Defined.

(** ** The triangle generator *)

Lemma random_row_from draw js row calls :
  fold_left (fun '((row, calls) : list Z * nat) (_ : nat) =>
               (row ++ [draw calls], S calls))
    js (row, calls)
  = (row ++ (draw <$> seq calls (length js)), (calls + length js)%nat).
Proof.
  revert row calls. induction js as [|j js IH]; intros row calls; simpl.
  - by rewrite app_nil_r, Nat.add_0_r.
  - rewrite IH, <- app_assoc. simpl. f_equal. lia.
Qed.

Lemma random_row_draws draw i calls :
  random_row draw i calls = (draw <$> seq calls (S i), (calls + S i)%nat).
Proof. unfold random_row. by rewrite random_row_from, length_seq. Qed.

Lemma generate_from draw (n : nat) : forall b (triangle : table) calls,
  exists more calls',
    fold_left
      (fun '((triangle, calls) : table * nat) i =>
         let '(row, calls) := random_row draw i calls in
         (triangle ++ [row], calls))
      (seq b n) (triangle, calls) = (triangle ++ more, calls') /\
    length more = n /\ shape_from (S b) more /\
    Forall (Forall (fun z => exists k, z = draw k)) more.
Proof.
  induction n as [|n IH]; intros b triangle calls; simpl.
  - exists [], calls. rewrite app_nil_r. repeat split. constructor.
  - rewrite random_row_draws.
    destruct (IH (S b) (triangle ++ [draw <$> seq calls (S b)]) (calls + S b)%nat)
      as (more & calls' & Hrun & Hlen & Hshape & Hdraws).
    assert (Hrow : Forall (fun z => exists k, z = draw k)
                     (draw <$> seq calls (S b))).
    { apply Forall_forall. intros z Hz.
      apply list_elem_of_fmap in Hz as (k & -> & _). by exists k. }
    assert (Hrowlen : length (draw <$> seq calls (S b)) = S b).
    { by rewrite length_fmap, length_seq. }
    exists ((draw <$> seq calls (S b)) :: more), calls'.
    rewrite Hrun, <- app_assoc.
    split; [done|]. split; [simpl; lia|]. split; [by split|by constructor].
Qed.

(** X14.  A generated triangle has the number of rows asked for (none when it
    is not positive), row [i] has [i+1] entries, and every entry lies in
    the range of the distribution. *)
Theorem generated_triangle_is_well_formed (draw : nat -> Z)
    (min_val max_val rows : Z) (calls : nat) :
  (forall k, min_val <= draw k <= max_val) ->
  let triangle := (generate_random_triangle draw rows calls).1 in
  length triangle = Z.to_nat rows /\
  well_formed_triangle triangle /\
  Forall (Forall (fun z => min_val <= z <= max_val)) triangle.
Proof.
  intros Hdraw. unfold generate_random_triangle.
  destruct (generate_from draw (Z.to_nat rows) 0 [] calls)
    as (more & calls' & -> & Hlen & Hshape & Hdraws).
  simpl. split; [done|]. split; [done|].
  eapply Forall_impl; [exact Hdraws|]. intros row Hrow.
  eapply Forall_impl; [exact Hrow|]. simpl. intros z [k ->]. apply Hdraw.
Qed.

Lemma generated_triangle_is_well_formed_witness :
  let draw := fun k : nat => Z.of_nat k mod 21 - 10 in
  let triangle := (generate_random_triangle draw 3 0).1 in
  (forall k, -10 <= draw k <= 10) /\
  triangle = [[-10]; [-9; -8]; [-7; -6; -5]] /\
  length triangle = Z.to_nat 3 /\
  well_formed_triangle triangle /\
  Forall (Forall (fun z => -10 <= z <= 10)) triangle.
Proof.
  intros draw triangle.
  assert (Hdraw : forall k, -10 <= draw k <= 10).
  { intros k. unfold draw.
    pose proof (Z.mod_pos_bound (Z.of_nat k) 21 ltac:(lia)). lia. }
  split; [exact Hdraw|]. split; [vm_compute; reflexivity|].
  exact (generated_triangle_is_well_formed draw (-10) 10 3 0 Hdraw).
Defined.

(** X15.  The triangles of the test suite and of the benchmark: at least one
    row, entries of absolute value at most [B], and [rows * B] no larger
    than the largest [int].  On them [minimum_total] has no overflow and no
    access out of range: it returns the least path sum, with a path that
    has it. *)
Theorem generated_triangle_gets_least_sum (draw : nat -> Z) (B rows : Z)
    (calls : nat) :
  1 <= rows -> rows * B <= 2147483647 ->
  (forall k, - B <= draw k <= B) ->
  let triangle := (generate_random_triangle draw rows calls).1 in
  exists cols,
    is_path triangle cols /\
    minimum_total triangle
    = Ret (path_sum triangle cols, entries_at triangle cols) /\
    forall cols', is_path triangle cols' ->
      path_sum triangle cols <= path_sum triangle cols'.
Proof.
  intros Hrows Hfit Hdraw. unfold generate_random_triangle.
  destruct (generate_from draw (Z.to_nat rows) 0 [] calls)
    as (more & calls' & -> & Hlen & Hshape & Hdraws).
  simpl.
  assert (HB : 0 <= B) by (specialize (Hdraw 0%nat); lia).
  assert (Hne : more <> []).
  { intros ->. simpl in Hlen. lia. }
  assert (Hin : entries_within B more).
  { unfold entries_within. eapply Forall_impl; [exact Hdraws|]. intros row Hrow.
    eapply Forall_impl; [exact Hrow|]. simpl. intros z [k ->]. apply Hdraw. }
  assert (Hfit' : Z.of_nat (length more) * B <= 2147483647).
  { rewrite Hlen, Z2Nat.id by lia. done. }
  destruct (within_no_overflow B more Hne Hshape HB Hin Hfit') as [Hint Hno].
  destruct (attained_sum_is_least more Hne Hshape Hint Hno)
    as (cols & Hpath & Hret & _ & Hleast).
  by exists cols.
Qed.

Lemma generated_triangle_gets_least_sum_witness :
  let draw := fun k : nat => Z.of_nat k mod 201 - 100 in
  let triangle := (generate_random_triangle draw 100 0).1 in
  (1 <= 100 /\ 100 * 100 <= 2147483647 /\ forall k, -100 <= draw k <= 100) /\
  exists cols,
    is_path triangle cols /\
    minimum_total triangle
    = Ret (path_sum triangle cols, entries_at triangle cols) /\
    forall cols', is_path triangle cols' ->
      path_sum triangle cols <= path_sum triangle cols'.
Proof.
  intros draw triangle.
  assert (Hdraw : forall k, -100 <= draw k <= 100).
  { intros k. unfold draw.
    pose proof (Z.mod_pos_bound (Z.of_nat k) 201 ltac:(lia)). lia. }
  split; [split; [lia|split; [lia|exact Hdraw]]|].
  apply (generated_triangle_gets_least_sum draw 100 100 0); [lia|lia|exact Hdraw].
Defined.

(** ** The three printing functions *)

Lemma append_assoc (s1 s2 s3 : string) : (s1 +:+ s2) +:+ s3 = s1 +:+ s2 +:+ s3.
Proof.
  induction s1 as [|c s1 IH]; [done|].
  change (String c ((s1 +:+ s2) +:+ s3) = String c (s1 +:+ s2 +:+ s3)).
  by rewrite IH.
Qed.

Lemma append_empty_r (s : string) : s +:+ "" = s.
Proof.
  induction s as [|c s IH]; [done|].
  change (String c (s +:+ "") = String c s). by rewrite IH.
Qed.

Lemma size_t_sub_1 (n : nat) :
  (0 < n)%nat -> Z.of_nat n < 2 ^ 64 -> size_t_sub (Z.of_nat n) 1 = Z.of_nat n - 1.
Proof. intros Hn Hfit. unfold size_t_sub. apply Z.mod_small. lia. Qed.

(** The loop shared by the three functions: each element is appended,
    and the separator after each element but the last. *)
Lemma join_loop {A} `{Inhabited A} (emit : string -> A -> string)
    (show : A -> string) (sep : string) (rest : list A) :
  (forall ss x, emit ss x = ss +:+ show x) ->
  forall (done_ : list A) (ss : string),
    Z.of_nat (length (done_ ++ rest)) < 2 ^ 64 ->
    fold_left (fun ss i =>
      let ss := emit ss ((done_ ++ rest) !!! i) in
      if Z.of_nat i <? size_t_sub (Z.of_nat (length (done_ ++ rest))) 1
      then ss +:+ sep else ss) (seq (length done_) (length rest)) ss
    = ss +:+ String.concat sep (show <$> rest).
Proof.
  intros Hemit. induction rest as [|x rest IH]; intros done_ ss Hfit.
  { simpl. by rewrite append_empty_r. }
  cbn [length seq fold_left].
  assert (Hx : (done_ ++ x :: rest) !!! length done_ = x).
  { apply list_lookup_total_correct. by rewrite list_lookup_middle. }
  assert (Hlen : length (done_ ++ x :: rest) = S (length done_ + length rest)).
  { rewrite length_app. simpl. lia. }
  assert (Hsub : size_t_sub (Z.of_nat (length (done_ ++ x :: rest))) 1
                 = Z.of_nat (length (done_ ++ x :: rest)) - 1).
  { apply size_t_sub_1; lia. }
  assert (Hdone : length (done_ ++ [x]) = S (length done_)).
  { rewrite length_app. simpl. lia. }
  specialize (IH (done_ ++ [x])).
  rewrite <- app_assoc in IH.
  change ([x] ++ rest) with (x :: rest) in IH.
  rewrite Hdone in IH.
  rewrite Hx, Hemit.
  destruct (Z.ltb_spec (Z.of_nat (length done_))
              (size_t_sub (Z.of_nat (length (done_ ++ x :: rest))) 1))
    as [Hlt|Hge].
  - destruct rest as [|y rest]; [simpl in Hlen; lia|].
    etrans; [exact (IH _ Hfit)|].
    change (String.concat sep (show <$> x :: y :: rest))
      with (show x +:+ sep +:+ String.concat sep (show <$> y :: rest)).
    by rewrite !append_assoc.
  - destruct rest as [|y rest]; [done|simpl in Hlen; lia].
Qed.

(** X16.  [vectorToString] puts the printed entries between brackets, with
    ", " between two entries and nowhere else; the empty vector gives
    "[]". *)
Theorem vectorToString_joins (vec : list Z) :
  Z.of_nat (length vec) < 2 ^ 64 ->
  vectorToString vec = "[" +:+ String.concat ", " (pretty <$> vec) +:+ "]".
Proof.
  intros Hfit. unfold vectorToString.
  rewrite (join_loop (fun ss x => ss +:+ pretty x) pretty ", " vec
             (fun _ _ => eq_refl) [] "[" Hfit).
  by rewrite append_assoc.
Qed.

Lemma vectorToString_joins_witness :
  Z.of_nat (length [4; -1; 8]) < 2 ^ 64 /\
  vectorToString [4; -1; 8]
  = "[" +:+ String.concat ", " (pretty <$> [4; -1; 8]) +:+ "]".
Proof.
  assert (H : Z.of_nat (length [4; -1; 8]) < 2 ^ 64) by (simpl; lia).
  split; [exact H|]. exact (vectorToString_joins [4; -1; 8] H).
Defined.

(** X17.  [pathToString] puts " -> " between two entries and nowhere else; the
    empty path gives the empty string. *)
Theorem pathToString_joins (path : list Z) :
  Z.of_nat (length path) < 2 ^ 64 ->
  pathToString path = String.concat " -> " (pretty <$> path).
Proof.
  intros Hfit. unfold pathToString.
  by rewrite (join_loop (fun ss x => ss +:+ pretty x) pretty " -> " path
                (fun _ _ => eq_refl) [] "" Hfit).
Qed.

Lemma pathToString_joins_witness :
  Z.of_nat (length [2; 3; 5; 1]) < 2 ^ 64 /\
  pathToString [2; 3; 5; 1] = String.concat " -> " (pretty <$> [2; 3; 5; 1]).
Proof.
  assert (H : Z.of_nat (length [2; 3; 5; 1]) < 2 ^ 64) by (simpl; lia).
  split; [exact H|]. exact (pathToString_joins [2; 3; 5; 1] H).
Defined.

(** X18.  [triangleToString] prints each row as [vectorToString] does, and
    joins the rows in the same way. *)
Theorem triangleToString_joins_rows (triangle : table) :
  Z.of_nat (length triangle) < 2 ^ 64 ->
  Forall (fun row : list Z => Z.of_nat (length row) < 2 ^ 64) triangle ->
  triangleToString triangle
  = "[" +:+ String.concat ", " (vectorToString <$> triangle) +:+ "]".
Proof.
  intros Hfit Hrows. unfold triangleToString.
  set (emit := fun (ss : string) (row : list Z) =>
    fold_left (fun ss j =>
      let ss := ss +:+ pretty (row !!! j) in
      if Z.of_nat j <? size_t_sub (Z.of_nat (length row)) 1 then ss +:+ ", "
      else ss) (seq 0 (length row)) (ss +:+ "[") +:+ "]").
  assert (Hall : forall done_ rest ss,
    Z.of_nat (length (done_ ++ rest)) < 2 ^ 64 ->
    Forall (fun row : list Z => Z.of_nat (length row) < 2 ^ 64) rest ->
    fold_left (fun ss i =>
      let ss := emit ss ((done_ ++ rest) !!! i) in
      if Z.of_nat i <? size_t_sub (Z.of_nat (length (done_ ++ rest))) 1
      then ss +:+ ", " else ss) (seq (length done_) (length rest)) ss
    = ss +:+ String.concat ", " (vectorToString <$> rest)).
  { intros done_ rest. revert done_.
    induction rest as [|x rest IH]; intros done_ ss Hfit' Hrest.
    { simpl. by rewrite append_empty_r. }
    apply Forall_cons in Hrest as [Hx Hrest].
    cbn [length seq fold_left].
    assert (Hlook : (done_ ++ x :: rest) !!! length done_ = x).
    { apply list_lookup_total_correct. by rewrite list_lookup_middle. }
    assert (Hemit : emit ss x = ss +:+ vectorToString x).
    { unfold emit, vectorToString.
      rewrite !(join_loop (fun ss x => ss +:+ pretty x) pretty ", " x
                  (fun _ _ => eq_refl) [] _ Hx).
      by rewrite !append_assoc. }
    assert (Hlen : length (done_ ++ x :: rest) = S (length done_ + length rest)).
    { rewrite length_app. simpl. lia. }
    assert (Hsub : size_t_sub (Z.of_nat (length (done_ ++ x :: rest))) 1
                   = Z.of_nat (length (done_ ++ x :: rest)) - 1).
    { apply size_t_sub_1; lia. }
    assert (Hdone : length (done_ ++ [x]) = S (length done_)).
    { rewrite length_app. simpl. lia. }
    specialize (IH (done_ ++ [x])).
    rewrite <- app_assoc in IH.
    change ([x] ++ rest) with (x :: rest) in IH.
    rewrite Hdone in IH.
    rewrite Hlook, Hemit.
    destruct (Z.ltb_spec (Z.of_nat (length done_))
                (size_t_sub (Z.of_nat (length (done_ ++ x :: rest))) 1))
      as [Hlt|Hge].
    - destruct rest as [|y rest]; [simpl in Hlen; lia|].
      etrans; [exact (IH _ Hfit' Hrest)|].
      change (String.concat ", " (vectorToString <$> x :: y :: rest))
        with (vectorToString x +:+ ", "
              +:+ String.concat ", " (vectorToString <$> y :: rest)).
      by rewrite !append_assoc.
    - destruct rest as [|y rest]; [done|simpl in Hlen; lia]. }
  rewrite <- append_assoc. f_equal. exact (Hall [] triangle "[" Hfit Hrows).
Qed.

Lemma triangleToString_joins_rows_witness :
  Z.of_nat (length [[2]; [3; 4]]) < 2 ^ 64 /\
  Forall (fun row : list Z => Z.of_nat (length row) < 2 ^ 64) [[2]; [3; 4]] /\
  triangleToString [[2]; [3; 4]]
  = "[" +:+ String.concat ", " (vectorToString <$> [[2]; [3; 4]]) +:+ "]".
Proof.
  assert (H : Z.of_nat (length [[2]; [3; 4]]) < 2 ^ 64) by (simpl; lia).
  assert (Hrows : Forall (fun row : list Z => Z.of_nat (length row) < 2 ^ 64)
                    [[2]; [3; 4]]).
  { repeat constructor; simpl; lia. }
  split; [exact H|]. split; [exact Hrows|].
  exact (triangleToString_joins_rows [[2]; [3; 4]] H Hrows).
Defined.

(** What the log shows of the first test case. *)
Example printed_test_case :
  triangleToString [[2]; [3; 4]; [6; 5; 7]] = "[[2], [3, 4], [6, 5, 7]]" /\
  vectorToString [] = "[]" /\
  pathToString [2; 3; 5; 1] = "2 -> 3 -> 5 -> 1" /\
  pathToString [] = "".
Proof. repeat split; vm_compute; reflexivity. Qed.
